(** * Block Puzzle: the game-state engine of [block_puzzle_game.jsx]

    A shallow embedding of the engine part of the React component
    [BlockPuzzleGame]: the board, the shape catalog, the validation and the
    write loops of [placeBlock], the line detection and clearing of
    [handleClears], the queue replenishment of [updateQueue] and the two
    click handlers.  Rendering and animation are left out.

    Conventions.
    - A JavaScript array is a [list]; reading an index that is not an
      element yields [undefined].
    - The component state (the five [useState] cells) is the record
      [State]; a handler is a function from the state of the render it was
      created in to the state after the batched updates, together with the
      way the handler completed.
    - [Math.random()] is an input of the operation that calls it: a
      rational [u] with [0 <= u < 1].  Multiplying a double below one by 8
      is exact, so the rational reading of [Math.floor(u * 8)] is the
      floating-point one.
    - The score is a JavaScript number that only ever holds multiples of
      200; it is modelled by [Z] (exact for every score below 2^53). *)

From Stdlib Require Import ZArith QArith Qround Lia.
From stdpp Require Import base option list strings.

Local Open Scope Z_scope.

(** ** Data model *)

(** [const GRID_SIZE = 8] *)
Definition GRID_SIZE : nat := 8.

(** The values a grid cell can hold: [null], a colour string, or
    [undefined] (an empty slot of an array that was extended by an
    assignment beyond its length). *)
Inductive Cell : Type :=
| Null
| Undefined
| Color (c : string).

#[global] Instance Cell_eq_dec : EqDecision Cell.
Proof. solve_decision. Defined.

Abbreviation Row := (list Cell).
Abbreviation Grid := (list (list Cell)).

(** [{ color, shape }]: the cells of a shape are the numbers 0 and 1. *)
Record Block : Type := mkBlock {
  color : string;
  shape : list (list Z)
}.

#[global] Instance Block_eq_dec : EqDecision Block.
Proof. solve_decision. Defined.

(** [emptyGrid = () => Array.from({length: GRID_SIZE}, () => Array(GRID_SIZE).fill(null))] *)
Definition emptyGrid : Grid := replicate GRID_SIZE (replicate GRID_SIZE Null).

(** [const SHAPES = [...]] *)
Definition SHAPES : list Block :=
  [ mkBlock "#ff6b6b" [[1; 1]; [1; 1]]            (* Square *)
  ; mkBlock "#4dabf7" [[1; 1; 1]]                 (* Line 3 *)
  ; mkBlock "#51cf66" [[1; 0]; [1; 1]]            (* L *)
  ; mkBlock "#ffa94d" [[1; 1; 1; 1]]              (* Line 4 *)
  ; mkBlock "#845ef7" [[1; 1; 0]; [0; 1; 1]]      (* Z *)
  ; mkBlock "#f06595" [[1; 1; 1]; [0; 1; 0]]      (* T *)
  ; mkBlock "#20c997" [[1]; [1]; [1]]             (* Vertical line *)
  ; mkBlock "#ffd43b" [[1; 1; 1]; [1; 0; 0]]      (* L2 *)
  ].

(** ** JavaScript array primitives *)

(** [a[k]] for an integer [k]: [None] stands for [undefined]. *)
Definition get {A : Type} (a : list A) (k : Z) : option A :=
  if k <? 0 then None else a !! Z.to_nat k.

(** [row[k]] as a cell value. *)
Definition readCell (row : Row) (k : Z) : Cell := default Undefined (get row k).

(** [x !== null] *)
Definition not_null (x : Cell) : bool :=
  match x with
  | Null => false
  | _ => true
  end.

(** [row[k] = v] for a natural index: an index at or beyond the length
    extends the array, leaving empty slots in between. *)
Definition array_set (row : Row) (k : nat) (v : Cell) : Row :=
  if decide (k < length row)%nat then <[k := v]> row
  else row ++ replicate (k - length row) Undefined ++ [v].

(** [row[k] = v] for an integer index: a negative [k] is not an array
    index, the assignment creates an ordinary property and the elements
    stay as they are.  Such a property is only visible to a later
    [row[k]] on the same array object; every read of the engine happens
    on a fresh spread copy [[...row]], which holds the elements only. *)
Definition row_assign (row : Row) (k : Z) (v : Cell) : Row :=
  if k <? 0 then row else array_set row (Z.to_nat k) v.

(** [g[ri][cj] = v]: [None] is the TypeError raised when [g[ri]] is
    [undefined]. *)
Definition assign (g : Grid) (ri cj : Z) (v : Cell) : option Grid :=
  row ← get g ri;
  Some (<[Z.to_nat ri := row_assign row cj v]> g).

(** [getRandomBlock = () => SHAPES[Math.floor(Math.random() * SHAPES.length)]],
    with the value [u] of [Math.random()] as argument. *)
Definition getRandomBlock (u : Q) : option Block :=
  get SHAPES (Qfloor (u * inject_Z (Z.of_nat (length SHAPES)))).

(** What [Math.random()] promises about its result. *)
Definition valid_draw (u : Q) : Prop := (0 <= u)%Q ∧ (u < 1)%Q.

(** ** Component state *)

(** The five [useState] cells.  A queue entry is whatever [getRandomBlock]
    returned ([None] for [undefined]); [selected = None] is [null].  An
    explosion is kept as its cell [(r, c)]; its [id], which embeds
    [Date.now()], belongs to the presentation. *)
Record State : Type := mkState {
  grid : Grid;
  queue : list (option Block);
  selected : option Block;
  score : Z;
  explosions : list (nat * nat)
}.

Definition setGrid (g : Grid) (st : State) : State :=
  mkState g (queue st) (selected st) (score st) (explosions st).
Definition setQueue (f : list (option Block) → list (option Block)) (st : State) : State :=
  mkState (grid st) (f (queue st)) (selected st) (score st) (explosions st).
Definition setSelected (b : option Block) (st : State) : State :=
  mkState (grid st) (queue st) b (score st) (explosions st).
Definition setScore (f : Z → Z) (st : State) : State :=
  mkState (grid st) (queue st) (selected st) (f (score st)) (explosions st).
Definition setExplosions (f : list (nat * nat) → list (nat * nat)) (st : State) : State :=
  mkState (grid st) (queue st) (selected st) (score st) (f (explosions st)).

(** The state of the first render: [useState(emptyGrid())],
    [useState([getRandomBlock(), getRandomBlock(), getRandomBlock()])],
    [useState(null)], [useState(0)], [useState([])]. *)
Definition initState (u1 u2 u3 : Q) : State :=
  mkState emptyGrid [getRandomBlock u1; getRandomBlock u2; getRandomBlock u3]
          None 0 [].

(** ** [placeBlock]: validation (lines 44-52) *)

(** How the validation loop ends: it runs to its end, it executes
    [return false], or it raises a TypeError by indexing [undefined]. *)
Inductive check : Type :=
| Pass
| Reject
| Crash.

#[global] Instance check_eq_dec : EqDecision check.
Proof. solve_decision. Defined.

(** The test of line 47 for the target [(ri, cj) = (r + i, c + j)]:
    [r + i >= GRID_SIZE || c + j >= GRID_SIZE || newGrid[r + i][c + j] !== null]. *)
Definition checkTarget (newGrid : Grid) (ri cj : Z) : check :=
  if (ri >=? Z.of_nat GRID_SIZE) || (cj >=? Z.of_nat GRID_SIZE) then Reject
  else match get newGrid ri with
       | None => Crash
       | Some row => if not_null (readCell row cj) then Reject else Pass
       end.

(** The inner loop over [j], from column offset [j] on, for row offset [i]. *)
Fixpoint canPlaceRow (newGrid : Grid) (r c : Z) (i j : nat) (cells : list Z) : check :=
  match cells with
  | [] => Pass
  | v :: rest =>
      if v =? 1 then
        match checkTarget newGrid (r + Z.of_nat i) (c + Z.of_nat j) with
        | Pass => canPlaceRow newGrid r c i (S j) rest
        | stop => stop
        end
      else canPlaceRow newGrid r c i (S j) rest
  end.

(** The outer loop over [i], from row offset [i] on. *)
Fixpoint canPlaceRows (newGrid : Grid) (r c : Z) (i : nat) (rows : list (list Z)) : check :=
  match rows with
  | [] => Pass
  | cells :: rest =>
      match canPlaceRow newGrid r c i 0 cells with
      | Pass => canPlaceRows newGrid r c (S i) rest
      | stop => stop
      end
  end.

(** The validation loop of [placeBlock]; the specification calls it
    [canPlace]. *)
Definition canPlace (newGrid : Grid) (r c : Z) (sh : list (list Z)) : check :=
  canPlaceRows newGrid r c 0 sh.

(** ** [placeBlock]: writing (lines 54-58) *)

Fixpoint writeRow (newGrid : Grid) (r c : Z) (i j : nat) (col : string)
    (cells : list Z) : option Grid :=
  match cells with
  | [] => Some newGrid
  | v :: rest =>
      g ← (if v =? 1
           then assign newGrid (r + Z.of_nat i) (c + Z.of_nat j) (Color col)
           else Some newGrid);
      writeRow g r c i (S j) col rest
  end.

Fixpoint writeRows (newGrid : Grid) (r c : Z) (i : nat) (col : string)
    (rows : list (list Z)) : option Grid :=
  match rows with
  | [] => Some newGrid
  | cells :: rest =>
      g ← writeRow newGrid r c i 0 col cells;
      writeRows g r c (S i) col rest
  end.

(** The write loop of [placeBlock]; the specification calls it [place].
    [None] is a TypeError. *)
Definition place (newGrid : Grid) (r c : Z) (block : Block) : option Grid :=
  writeRows newGrid r c 0 (color block) (shape block).

(** ** [handleClears] (lines 71-91) *)

(** [row.every((cell) => cell !== null)], also for [grid.every]. *)
Definition every {A : Type} (p : A → bool) (a : list A) : bool := forallb p a.

(** Line 75: the loop over [r] pushing the full rows; [grid[r].every]
    raises a TypeError when [grid[r]] is [undefined]. *)
Fixpoint scanRows (g : Grid) (rs : list nat) : option (list nat) :=
  match rs with
  | [] => Some []
  | r :: rest =>
      row ← g !! r;
      found ← scanRows g rest;
      Some (if every not_null row then r :: found else found)
  end.

Definition rowsToClear (g : Grid) : option (list nat) :=
  scanRows g (seq 0 GRID_SIZE).

(** Line 76: [grid.every((row) => row[c] !== null)]. *)
Definition colFull (g : Grid) (c : nat) : bool :=
  every (λ row, not_null (readCell row (Z.of_nat c))) g.

Definition colsToClear (g : Grid) : list nat :=
  filter (λ c, colFull g c = true) (seq 0 GRID_SIZE).

(** Lines 80-82: the cells handed to [triggerExplosion].  ([forEach]
    passes over the empty slots of an extended array, which [Undefined]
    also stands for; a board of the engine has none.) *)
Definition explosionCells (g : Grid) (rows cols : list nat) : list (nat * nat) :=
  flat_map (λ r, (λ c, (r, c)) <$> seq 0 (length (default [] (g !! r)))) rows
  ++ flat_map (λ c, (λ r, (r, c)) <$> seq 0 (length g)) cols.

(** [triggerExplosion]: [setExplosions((prev) => [...prev, ...cells])].
    The timer it starts is the separate event [explosionTimeout]. *)
Definition triggerExplosion (cells : list (nat * nat)) (st : State) : State :=
  setExplosions (λ prev, prev ++ cells) st.

(** Line 86: [rowsToClear.forEach((r) => newGrid[r].fill(null))].  Every
    [r] here has passed [grid[r].every] on an array of the same length,
    so [newGrid[r]] is an array. *)
Definition clearRows (rows : list nat) (newGrid : Grid) : Grid :=
  foldl (λ g r, alter (λ row, replicate (length row) Null) r g) newGrid rows.

(** Line 87: [colsToClear.forEach((c) => newGrid.forEach((row) => (row[c] = null)))]. *)
Definition clearCols (cols : list nat) (newGrid : Grid) : Grid :=
  foldl (λ g c, (λ row, array_set row c Null) <$> g) newGrid cols.

(** [handleClears(grid)], run on the pending state [st].  [None] is the
    TypeError of line 75, raised before any state setter is called. *)
Definition handleClears (g : Grid) (st : State) : option State :=
  rows ← rowsToClear g;
  let cols := colsToClear g in
  if decide (rows = [] ∧ cols = []) then Some st
  else
    let st1 := triggerExplosion (explosionCells g rows cols) st in
    let newGrid := clearCols cols (clearRows rows g) in
    let st2 := setGrid newGrid st1 in
    Some (setScore (λ s, s + Z.of_nat (length rows + length cols) * 200) st2).

(** ** [updateQueue] (lines 66-69) *)

(** [setQueue((q) => [...q.slice(1), getRandomBlock()]); setSelected(null)] *)
Definition updateQueue (u : Q) (st : State) : State :=
  setSelected None (setQueue (λ q, drop 1 q ++ [getRandomBlock u]) st).

(** ** [placeBlock] (lines 40-64) *)

(** How a call of [placeBlock] ends. *)
Inductive outcome : Type :=
| Returned (b : bool)
| Threw.

(** [placeBlock(r, c, block)] in the render with state [st]; [u] is the
    value [Math.random()] gives to [updateQueue].  The result is the state
    after the updates queued so far and the way the call ended.  The copy
    [grid.map(row => [...row])] of line 42 is the same list value; the
    later [setGrid] of [handleClears] overrides the one of line 60. *)
Definition placeBlock (st : State) (r c : Z) (block : Block) (u : Q) : State * outcome :=
  let newGrid := grid st in
  match canPlace newGrid r c (shape block) with
  | Reject => (st, Returned false)
  | Crash => (st, Threw)
  | Pass =>
      match place newGrid r c block with
      | None => (st, Threw)
      | Some placed =>
          let st1 := setGrid placed st in
          match handleClears placed st1 with
          | None => (st1, Threw)
          | Some st2 => (updateQueue u st2, Returned true)
          end
      end
  end.

(** ** The event handlers *)

(** What a click on a board cell amounted to. *)
Inductive attempt : Type :=
| NoSelection
| Attempted (o : outcome).

(** Line 111: [onClick={() => selected && placeBlock(r, c, selected)}] *)
Definition onCellClick (st : State) (r c : Z) (u : Q) : State * attempt :=
  match selected st with
  | None => (st, NoSelection)
  | Some b => let '(st', o) := placeBlock st r c b u in (st', Attempted o)
  end.

(** Line 164: [onClick={() => setSelected(b)}] on the [i]-th queue entry;
    there is nothing to click beyond the end of the queue. *)
Definition onQueueClick (st : State) (i : nat) : State :=
  match queue st !! i with
  | Some b => setSelected b st
  | None => st
  end.

(** Line 37: the timer callback [() => setExplosions([])]. *)
Definition explosionTimeout (st : State) : State :=
  setExplosions (λ _, []) st.

(** The events the engine reacts to. *)
Inductive action : Type :=
| SelectBlock (i : nat)
| ClickCell (r c : Z) (u : Q)
| ExplosionTimeout.

Definition step (st : State) (a : action) : State :=
  match a with
  | SelectBlock i => onQueueClick st i
  | ClickCell r c u => (onCellClick st r c u).1
  | ExplosionTimeout => explosionTimeout st
  end.

(** Every random draw of an event is a value [Math.random()] can give. *)
Definition valid_action (a : action) : Prop :=
  match a with
  | ClickCell _ _ u => valid_draw u
  | _ => True
  end.

(** The states a game session can be in. *)
Inductive reachable : State → Prop :=
| reachable_init u1 u2 u3 :
    valid_draw u1 → valid_draw u2 → valid_draw u3 →
    reachable (initState u1 u2 u3)
| reachable_step st a :
    reachable st → valid_action a → reachable (step st a).

(** ** Board predicates used by the statements *)

(** The cell at board coordinates [(r, c)], if there is one. *)
Definition cellAt (g : Grid) (r c : nat) : option Cell :=
  row ← g !! r; row !! c.

(** A cell is occupied when it holds the colour of a block. *)
Definition occupied (g : Grid) (r c : nat) : Prop :=
  ∃ col, cellAt g r c = Some (Color col).

Definition full_row (g : Grid) (r : nat) : Prop :=
  ∀ c, (c < GRID_SIZE)%nat → occupied g r c.

Definition full_col (g : Grid) (c : nat) : Prop :=
  ∀ r, (r < GRID_SIZE)%nat → occupied g r c.

(** No row and no column of the board is fully occupied. *)
Definition no_full_line (g : Grid) : Prop :=
  ∀ k, (k < GRID_SIZE)%nat → ¬ full_row g k ∧ ¬ full_col g k.

(** A board as the engine maintains it: 8 rows of 8 cells, each [null]
    or a colour. *)
Definition wf_row (row : Row) : Prop :=
  length row = GRID_SIZE ∧ Forall (λ x, x ≠ Undefined) row.

Definition wf_grid (g : Grid) : Prop :=
  length g = GRID_SIZE ∧ Forall wf_row g.

#[global] Instance wf_row_dec row : Decision (wf_row row).
Proof. unfold wf_row. apply _. Defined.

#[global] Instance wf_grid_dec g : Decision (wf_grid g).
Proof. unfold wf_grid. apply _. Defined.

(** [(i, j)] is an occupied offset of the shape: [shape[i][j] === 1]. *)
Definition occupies (sh : list (list Z)) (i j : nat) : Prop :=
  ∃ cells, sh !! i = Some cells ∧ cells !! j = Some 1.

(** The target of an offset lies on the board. *)
Definition on_board (ri cj : Z) : Prop :=
  0 ≤ ri < Z.of_nat GRID_SIZE ∧ 0 ≤ cj < Z.of_nat GRID_SIZE.

(** The target cell exists and is occupied. *)
Definition occupiedZ (g : Grid) (ri cj : Z) : Prop :=
  0 ≤ ri ∧ 0 ≤ cj ∧ occupied g (Z.to_nat ri) (Z.to_nat cj).

(** The three reasons the specification gives for [canPlace] to fail. *)
Definition blocked (g : Grid) (r c : Z) (sh : list (list Z)) : Prop :=
  ∃ i j, occupies sh i j ∧
    (r + Z.of_nat i >= Z.of_nat GRID_SIZE
     ∨ c + Z.of_nat j >= Z.of_nat GRID_SIZE
     ∨ occupiedZ g (r + Z.of_nat i) (c + Z.of_nat j)).

(** A queue entry is one of the catalog's block definitions. *)
Definition catalog_entry (e : option Block) : Prop :=
  ∃ b, e = Some b ∧ b ∈ SHAPES.

(** Running a sequence of events. *)
Definition run (st : State) (tr : list action) : State := foldl step st tr.

(** The cells an inner run of the write loop paints: row offset [i],
    column offsets from [j] on. *)
Definition row_covers (r c : Z) (i j : nat) (cells : list Z) (r' c' : nat) : Prop :=
  ∃ k, cells !! k = Some 1 ∧
       Z.of_nat r' = r + Z.of_nat i ∧ Z.of_nat c' = c + Z.of_nat (j + k).

(** The cells a shape anchored at [(r, c)] covers. *)
Definition covers (r c : Z) (sh : list (list Z)) (r' c' : nat) : Prop :=
  ∃ i j, occupies sh i j ∧
         Z.of_nat r' = r + Z.of_nat i ∧ Z.of_nat c' = c + Z.of_nat j.

(** A cell after a write: painted when covered, as before otherwise. *)
Definition painted (P : Prop) (col : string) (before after : option Cell) : Prop :=
  (P ∧ after = Some (Color col)) ∨ (¬ P ∧ after = before).

(** The cells the outer loop paints from row offset [i] on. *)
Definition rows_cover (r c : Z) (i : nat) (rows : list (list Z)) (r' c' : nat) : Prop :=
  ∃ k cells m, rows !! k = Some cells ∧ cells !! m = Some 1 ∧
       Z.of_nat r' = r + Z.of_nat (i + k) ∧ Z.of_nat c' = c + Z.of_nat m.

(** What the two detection loops of [handleClears] collect on a board:
    each fully occupied row and column, once. *)
Definition detected (g : Grid) (rows cols : list nat) : Prop :=
  NoDup rows ∧ NoDup cols ∧
  (∀ r, r ∈ rows ↔ (r < GRID_SIZE)%nat ∧ full_row g r) ∧
  (∀ c, c ∈ cols ↔ (c < GRID_SIZE)%nat ∧ full_col g c).

(** The board after the clearing of the listed rows and columns: a cell
    of a listed line is empty, every other cell is as it was. *)
Definition cleared (g g' : Grid) (rows cols : list nat) : Prop :=
  ∀ r c, (r < GRID_SIZE)%nat → (c < GRID_SIZE)%nat →
    cellAt g' r c = if decide (r ∈ rows ∨ c ∈ cols) then Some Null
                    else cellAt g r c.

(** What holds in every state of a session. *)
Definition invariant (st : State) : Prop :=
  wf_grid (grid st) ∧ no_full_line (grid st) ∧
  length (queue st) = 3%nat ∧ Forall catalog_entry (queue st) ∧
  0 ≤ score st.

(** ** Deciding the board predicates *)

#[global] Instance occupied_dec g r c : Decision (occupied g r c).
Proof.
  unfold occupied. destruct (cellAt g r c) as [[| |col]|].
  - right. by intros [col H].
  - right. by intros [col H].
  - left. by exists col.
  - right. by intros [col H].
Defined.

#[global] Instance full_row_dec g r : Decision (full_row g r).
Proof.
  refine (match decide (Forall (λ c, occupied g r c) (seq 0 GRID_SIZE)) with
          | left Hall => left _
          | right Hnot => right _
          end).
  - intros c Hc.
    apply (proj1 (Forall_forall (λ c, occupied g r c) (seq 0 GRID_SIZE)) Hall c).
    apply elem_of_seq. lia.
  - intros H. apply Hnot, Forall_forall. intros c Hc. apply H.
    apply elem_of_seq in Hc. lia.
Defined.

#[global] Instance full_col_dec g c : Decision (full_col g c).
Proof.
  refine (match decide (Forall (λ r, occupied g r c) (seq 0 GRID_SIZE)) with
          | left Hall => left _
          | right Hnot => right _
          end).
  - intros r Hr.
    apply (proj1 (Forall_forall (λ r, occupied g r c) (seq 0 GRID_SIZE)) Hall r).
    apply elem_of_seq. lia.
  - intros H. apply Hnot, Forall_forall. intros r Hr. apply H.
    apply elem_of_seq in Hr. lia.
Defined.

#[global] Instance no_full_line_dec g : Decision (no_full_line g).
Proof.
  refine (match decide (Forall (λ k, ¬ full_row g k ∧ ¬ full_col g k)
                               (seq 0 GRID_SIZE)) with
          | left Hall => left _
          | right Hnot => right _
          end).
  - intros k Hk.
    apply (proj1 (Forall_forall (λ k, ¬ full_row g k ∧ ¬ full_col g k)
                                (seq 0 GRID_SIZE)) Hall k).
    apply elem_of_seq. lia.
  - intros H. apply Hnot, Forall_forall. intros k Hk. apply H.
    apply elem_of_seq in Hk. lia.
Defined.

(** The part of the state the engine computes with: everything but the
    pending explosions, which only the rendering reads. *)
Definition engine (st : State) : Grid * list (option Block) * option Block * Z :=
  (grid st, queue st, selected st, score st).

(** The number of rows of a shape and the length of its longest row. *)
Definition shape_height (sh : list (list Z)) : nat := length sh.
Definition shape_width (sh : list (list Z)) : nat := max_list (length <$> sh).

(** ** Scenarios *)

(** Four entries of the catalog, under the names of their comments. *)
Definition Square : Block := mkBlock "#ff6b6b" [[1; 1]; [1; 1]].
Definition Line4 : Block := mkBlock "#ffa94d" [[1; 1; 1; 1]].
Definition VerticalLine : Block := mkBlock "#20c997" [[1]; [1]; [1]].
Definition LShape : Block := mkBlock "#51cf66" [[1; 0]; [1; 1]].

(** A session whose draws all give the 1x4 line ([Math.floor(3/8 * 8) = 3]). *)
Definition lineSession : State := initState (3 # 8) (3 # 8) (3 # 8).

(** The first line has been placed at the left of row 0 and the next one
    is selected. *)
Definition halfRowState : State :=
  run lineSession [SelectBlock 0; ClickCell 0 0 (3 # 8); SelectBlock 0].

(** A fresh session with the square selected. *)
Definition squareState : State := onQueueClick (initState 0 0 0) 0.

(** A board whose only occupied cell is the top left one. *)
Definition oneCellBoard : Grid :=
  <[0%nat := <[0%nat := Color "#20c997"]> (replicate GRID_SIZE Null)]> emptyGrid.

(** Column 0 lacks its last three cells and row 7 its first one: a
    vertical line at [(5, 0)] completes both. *)
Definition cornerBoard : Grid :=
  let x := Color "#4dabf7" in
  [ [x; Null; Null; Null; Null; Null; Null; Null]
  ; [x; Null; Null; Null; Null; Null; Null; Null]
  ; [x; Null; Null; Null; Null; Null; Null; Null]
  ; [x; Null; Null; Null; Null; Null; Null; Null]
  ; [x; Null; Null; Null; Null; Null; Null; Null]
  ; [Null; Null; Null; Null; Null; Null; Null; Null]
  ; [Null; Null; Null; Null; Null; Null; Null; Null]
  ; [Null; x; x; x; x; x; x; x] ].

Definition cornerPlaced : Grid :=
  let x := Color "#4dabf7" in
  let v := Color "#20c997" in
  [ [x; Null; Null; Null; Null; Null; Null; Null]
  ; [x; Null; Null; Null; Null; Null; Null; Null]
  ; [x; Null; Null; Null; Null; Null; Null; Null]
  ; [x; Null; Null; Null; Null; Null; Null; Null]
  ; [x; Null; Null; Null; Null; Null; Null; Null]
  ; [v; Null; Null; Null; Null; Null; Null; Null]
  ; [v; Null; Null; Null; Null; Null; Null; Null]
  ; [v; x; x; x; x; x; x; x] ].

Definition cornerState : State :=
  mkState cornerBoard [Some VerticalLine; Some Square; Some Line4]
          (Some VerticalLine) 600 [].

(** The state [handleClears] gives for the corner board after the write
    loop. *)
Definition cornerCleared : State :=
  default cornerState (handleClears cornerPlaced (setGrid cornerPlaced cornerState)).

(** * Properties *)

(** ** Arrays *)

Lemma get_of_nat {A : Type} (a : list A) (k : nat) : get a (Z.of_nat k) = a !! k.
Proof.
  unfold get. destruct (Z.ltb_spec (Z.of_nat k) 0) as [H|H]; [lia|].
  by rewrite Nat2Z.id.
Qed.

Lemma get_Some {A : Type} (a : list A) (k : Z) (x : A) :
  get a k = Some x ↔ 0 ≤ k ∧ a !! Z.to_nat k = Some x.
Proof.
  unfold get. destruct (Z.ltb_spec k 0) as [H|H].
  - split; [done|]. intros [? _]. lia.
  - split; [by intros ?|by intros [_ ?]].
Qed.

Lemma get_None_neg {A : Type} (a : list A) (k : Z) : k < 0 → get a k = None.
Proof. intros H. unfold get. by destruct (Z.ltb_spec k 0); [|lia]. Qed.

Lemma readCell_Null (row : Row) (k : Z) :
  readCell row k = Null ↔ 0 ≤ k ∧ row !! Z.to_nat k = Some Null.
Proof.
  unfold readCell. split.
  - destruct (get row k) as [x|] eqn:E; [|done].
    intros Hx. apply get_Some in E as [? E]. change (x = Null) in Hx.
    by subst x.
  - intros HK. apply get_Some in HK. by rewrite HK.
Qed.

Lemma wf_grid_lookup (g : Grid) (r : nat) :
  wf_grid g → (r < GRID_SIZE)%nat → ∃ row, g !! r = Some row ∧ wf_row row.
Proof.
  intros [Hlen Hrows] Hr.
  destruct (lookup_lt_is_Some_2 g r) as [row Hrow]; [lia|].
  exists row. split; [done|]. by eapply Forall_lookup_1.
Qed.

Lemma wf_row_lookup (row : Row) (c : nat) :
  wf_row row → (c < GRID_SIZE)%nat → ∃ x, row !! c = Some x ∧ x ≠ Undefined.
Proof.
  intros [Hlen Hcells] Hc.
  destruct (lookup_lt_is_Some_2 row c) as [x Hx]; [lia|].
  exists x. split; [done|]. by eapply (Forall_lookup_1 _ _ _ _ Hcells).
Qed.

Lemma wf_cellAt (g : Grid) (r c : nat) :
  wf_grid g → (r < GRID_SIZE)%nat → (c < GRID_SIZE)%nat →
  ∃ x, cellAt g r c = Some x ∧ x ≠ Undefined.
Proof.
  intros Hg Hr Hc. destruct (wf_grid_lookup g r Hg Hr) as (row & Hrow & Hwf).
  destruct (wf_row_lookup row c Hwf Hc) as (x & Hx & Hne).
  exists x. split; [|done]. unfold cellAt. by rewrite Hrow.
Qed.

Lemma wf_emptyGrid : wf_grid emptyGrid.
Proof. apply (bool_decide_unpack (wf_grid emptyGrid)). by vm_compute. Qed.

(** On a well-formed board a cell is either empty or occupied. *)
Lemma wf_cell_cases (g : Grid) (r c : nat) :
  wf_grid g → (r < GRID_SIZE)%nat → (c < GRID_SIZE)%nat →
  cellAt g r c = Some Null ∨ occupied g r c.
Proof.
  intros Hg Hr Hc. destruct (wf_cellAt g r c Hg Hr Hc) as ([| |col] & Hx & Hne).
  - by left.
  - done.
  - right. by exists col.
Qed.

(** ** The validation loop *)

Section Validation.

(** The board the loop reads and the anchor of the shape. *)
Context (g : Grid) (r c : Z).

Lemma checkTarget_Pass (ri cj : Z) :
  checkTarget g ri cj = Pass ↔
  on_board ri cj ∧ cellAt g (Z.to_nat ri) (Z.to_nat cj) = Some Null.
Proof.
  unfold checkTarget, on_board, cellAt. rewrite !Z.geb_leb.
  destruct (Z.leb_spec (Z.of_nat GRID_SIZE) ri) as [Hr|Hr]; simpl.
  { split; [done|]. intros [[? ?] _]. lia. }
  destruct (Z.leb_spec (Z.of_nat GRID_SIZE) cj) as [Hc|Hc]; simpl.
  { split; [done|]. intros [[? ?] _]. lia. }
  destruct (get g ri) as [row|] eqn:E.
  - apply get_Some in E as [Hr0 E]. rewrite E. simpl.
    destruct (readCell row cj) eqn:Ecell; simpl.
    + apply readCell_Null in Ecell as [? ?]. split; [|done]. intros _.
      split; [lia|done].
    + split; [done|]. intros [[? ?] Hcell].
      assert (readCell row cj = Null) as HN by (apply readCell_Null; split; [lia|done]).
      congruence.
    + split; [done|]. intros [[? ?] Hcell].
      assert (readCell row cj = Null) as HN by (apply readCell_Null; split; [lia|done]).
      congruence.
  - split; [done|]. intros [[[Hr0 _] _] Hcell].
    destruct (g !! Z.to_nat ri) as [row|] eqn:Erow; [|done].
    assert (get g ri = Some row) as E' by (apply get_Some; done). congruence.
Qed.

Lemma checkTarget_no_crash (ri cj : Z) :
  wf_grid g → 0 ≤ ri → checkTarget g ri cj ≠ Crash.
Proof.
  intros Hg Hr. unfold checkTarget. rewrite !Z.geb_leb.
  destruct (Z.leb_spec (Z.of_nat GRID_SIZE) ri) as [Hr8|Hr8]; simpl; [done|].
  destruct (Z.of_nat GRID_SIZE <=? cj); simpl; [done|].
  destruct (wf_grid_lookup g (Z.to_nat ri) Hg) as (row & Hrow & _); [lia|].
  assert (get g ri = Some row) as -> by (apply get_Some; done).
  by destruct (not_null _).
Qed.

(** With a row index that is not negative, the test of line 47 rejects
    exactly for the three reasons of the specification. *)
Lemma checkTarget_Reject (ri cj : Z) :
  wf_grid g → 0 ≤ ri → 0 ≤ cj →
  checkTarget g ri cj = Reject ↔
  ri >= Z.of_nat GRID_SIZE ∨ cj >= Z.of_nat GRID_SIZE ∨ occupiedZ g ri cj.
Proof.
  intros Hg Hr Hc.
  pose proof (checkTarget_no_crash ri cj Hg Hr) as Hnc.
  pose proof (checkTarget_Pass ri cj) as HP.
  destruct (decide (ri < Z.of_nat GRID_SIZE ∧ cj < Z.of_nat GRID_SIZE)) as [[H1 H2]|Hout].
  - destruct (wf_cell_cases g (Z.to_nat ri) (Z.to_nat cj) Hg) as [HN|Hocc]; [lia..| |].
    + assert (checkTarget g ri cj = Pass) as -> by (apply HP; unfold on_board; done).
      split; [done|]. intros [?|[?|(_ & _ & col & Hcol)]]; [lia..|congruence].
    + split; [intros _; right; right; done|]. intros _.
      destruct (checkTarget g ri cj); [|done..].
      destruct HP as [HP _]. destruct (HP eq_refl) as [_ HN].
      destruct Hocc as [col Hcol]. congruence.
  - split; [intros _; lia|]. intros _.
    destruct (checkTarget g ri cj); [|done..].
    destruct HP as [HP _]. destruct (HP eq_refl) as [[? ?] _]. lia.
Qed.

(** A target off the board is rejected, also to the left of the board:
    [row[c + j]] is [undefined] there, which is not [null]. *)
Lemma checkTarget_off_board (ri cj : Z) :
  wf_grid g → 0 ≤ ri → ¬ on_board ri cj → checkTarget g ri cj = Reject.
Proof.
  intros Hg Hr Hout.
  pose proof (checkTarget_no_crash ri cj Hg Hr) as Hnc.
  destruct (checkTarget g ri cj) eqn:E; [|done..].
  apply checkTarget_Pass in E as [? _]. done.
Qed.

Lemma canPlaceRow_Pass (i j : nat) (cells : list Z) :
  canPlaceRow g r c i j cells = Pass ↔
  ∀ k, cells !! k = Some 1 →
       checkTarget g (r + Z.of_nat i) (c + Z.of_nat (j + k)) = Pass.
Proof.
  revert j. induction cells as [|v rest IH]; intros j; simpl.
  { split; [|done]. intros _ k Hk. done. }
  destruct (Z.eqb_spec v 1) as [->|Hv].
  - destruct (checkTarget g (r + Z.of_nat i) (c + Z.of_nat j)) eqn:E.
    + rewrite IH. split.
      * intros H [|k] Hk; simpl in Hk.
        -- by rewrite Nat.add_0_r.
        -- replace (j + S k)%nat with (S j + k)%nat by lia. by apply H.
      * intros H k Hk. replace (S j + k)%nat with (j + S k)%nat by lia.
        by apply H.
    + split; [done|]. intros H. specialize (H 0%nat eq_refl).
      rewrite Nat.add_0_r in H. congruence.
    + split; [done|]. intros H. specialize (H 0%nat eq_refl).
      rewrite Nat.add_0_r in H. congruence.
  - rewrite IH. split.
    + intros H [|k] Hk; simpl in Hk.
      * congruence.
      * replace (j + S k)%nat with (S j + k)%nat by lia. by apply H.
    + intros H k Hk. replace (S j + k)%nat with (j + S k)%nat by lia.
      by apply H.
Qed.

(** When the inner loop stops early, it stops at an occupied offset, with
    what the test of line 47 gave there. *)
Lemma canPlaceRow_stop (i j : nat) (cells : list Z) (x : check) :
  x ≠ Pass → canPlaceRow g r c i j cells = x →
  ∃ k, cells !! k = Some 1 ∧
       checkTarget g (r + Z.of_nat i) (c + Z.of_nat (j + k)) = x.
Proof.
  intros Hx. revert j. induction cells as [|v rest IH]; intros j; simpl.
  { congruence. }
  destruct (Z.eqb_spec v 1) as [->|Hv].
  - destruct (checkTarget g (r + Z.of_nat i) (c + Z.of_nat j)) eqn:E.
    + intros H. destruct (IH _ H) as (k & Hk & Hc). exists (S k).
      split; [done|]. by replace (j + S k)%nat with (S j + k)%nat by lia.
    + intros <-. exists 0%nat. by rewrite Nat.add_0_r.
    + intros <-. exists 0%nat. by rewrite Nat.add_0_r.
  - intros H. destruct (IH _ H) as (k & Hk & Hc). exists (S k).
    split; [done|]. by replace (j + S k)%nat with (S j + k)%nat by lia.
Qed.

Lemma canPlaceRows_Pass (i : nat) (rows : list (list Z)) :
  canPlaceRows g r c i rows = Pass ↔
  ∀ k cells m, rows !! k = Some cells → cells !! m = Some 1 →
       checkTarget g (r + Z.of_nat (i + k)) (c + Z.of_nat m) = Pass.
Proof.
  revert i. induction rows as [|cells0 rest IH]; intros i; simpl.
  { split; [|done]. intros _ k cells m Hk. done. }
  destruct (canPlaceRow g r c i 0 cells0) eqn:E.
  - rewrite IH. pose proof (proj1 (canPlaceRow_Pass _ _ _) E) as H0.
    split.
    + intros H [|k] cells m Hk Hm; simpl in Hk.
      * injection Hk as <-. rewrite Nat.add_0_r. by apply (H0 m).
      * replace (i + S k)%nat with (S i + k)%nat by lia. by eapply H.
    + intros H k cells m Hk Hm.
      replace (S i + k)%nat with (i + S k)%nat by lia. by eapply H.
  - split; [done|]. intros H.
    assert (canPlaceRow g r c i 0 cells0 = Pass) as E'; [|congruence].
    apply canPlaceRow_Pass. intros m Hm.
    specialize (H 0%nat cells0 m eq_refl Hm). by rewrite Nat.add_0_r in H.
  - split; [done|]. intros H.
    assert (canPlaceRow g r c i 0 cells0 = Pass) as E'; [|congruence].
    apply canPlaceRow_Pass. intros m Hm.
    specialize (H 0%nat cells0 m eq_refl Hm). by rewrite Nat.add_0_r in H.
Qed.

Lemma canPlaceRows_stop (i : nat) (rows : list (list Z)) (x : check) :
  x ≠ Pass → canPlaceRows g r c i rows = x →
  ∃ k cells m, rows !! k = Some cells ∧ cells !! m = Some 1 ∧
       checkTarget g (r + Z.of_nat (i + k)) (c + Z.of_nat m) = x.
Proof.
  intros Hx. revert i. induction rows as [|cells0 rest IH]; intros i; simpl.
  { congruence. }
  destruct (canPlaceRow g r c i 0 cells0) eqn:E.
  - intros H. destruct (IH _ H) as (k & cells & m & Hk & Hm & Hc).
    exists (S k), cells, m. split; [done|]. split; [done|].
    by replace (i + S k)%nat with (S i + k)%nat by lia.
  - intros <-. destruct (canPlaceRow_stop _ _ _ _ Hx E) as (m & Hm & Hc).
    exists 0%nat, cells0, m. by rewrite Nat.add_0_r.
  - intros <-. destruct (canPlaceRow_stop _ _ _ _ Hx E) as (m & Hm & Hc).
    exists 0%nat, cells0, m. by rewrite Nat.add_0_r.
Qed.

(** The validation passes exactly when the test of line 47 passes at
    every occupied offset. *)
Lemma canPlace_Pass (sh : list (list Z)) :
  canPlace g r c sh = Pass ↔
  ∀ i j, occupies sh i j →
         checkTarget g (r + Z.of_nat i) (c + Z.of_nat j) = Pass.
Proof.
  unfold canPlace. rewrite canPlaceRows_Pass. split.
  - intros H i j (cells & Hi & Hj). by apply (H i cells j).
  - intros H k cells m Hk Hm. apply (H k m). by exists cells.
Qed.

Lemma canPlace_stop (sh : list (list Z)) (x : check) :
  x ≠ Pass → canPlace g r c sh = x →
  ∃ i j, occupies sh i j ∧
         checkTarget g (r + Z.of_nat i) (c + Z.of_nat j) = x.
Proof.
  intros Hx H. destruct (canPlaceRows_stop _ _ _ Hx H) as (k & cells & m & Hk & Hm & Hc).
  exists k, m. split; [by exists cells|done].
Qed.

(** Without a negative row anchor the validation never indexes
    [undefined]. *)
Lemma canPlace_no_crash (sh : list (list Z)) :
  wf_grid g → 0 ≤ r → canPlace g r c sh ≠ Crash.
Proof.
  intros Hg Hr E. assert (Crash ≠ Pass) as Hx by done.
  destruct (canPlace_stop _ _ Hx E) as (i & j & _ & Hc).
  revert Hc. apply checkTarget_no_crash; [done|lia].
Qed.

End Validation.

(** ** The write loop *)

Lemma array_set_in_range (row : Row) (k : nat) (v : Cell) :
  (k < length row)%nat → array_set row k v = <[k := v]> row.
Proof. intros H. unfold array_set. by rewrite decide_True. Qed.

Lemma wf_row_insert (row : Row) (k : nat) (v : Cell) :
  wf_row row → v ≠ Undefined → wf_row (<[k := v]> row).
Proof.
  intros [Hlen Hcells] Hv. split; [by rewrite length_insert|].
  by apply Forall_insert.
Qed.

(** An assignment to a cell of the board succeeds and changes that cell
    only. *)
Lemma assign_on_board (g : Grid) (ri cj : Z) (v : Cell) :
  wf_grid g → on_board ri cj → v ≠ Undefined →
  ∃ g', assign g ri cj v = Some g' ∧ wf_grid g' ∧
    ∀ r c, cellAt g' r c =
           if decide (r = Z.to_nat ri ∧ c = Z.to_nat cj) then Some v
           else cellAt g r c.
Proof.
  intros Hg [[Hr0 Hr8] [Hc0 Hc8]] Hv.
  destruct (wf_grid_lookup g (Z.to_nat ri) Hg) as (row & Hrow & Hwf); [lia|].
  assert (get g ri = Some row) as Hget by (by apply get_Some).
  assert (Z.to_nat cj < length row)%nat as Hlt by (destruct Hwf as [-> _]; lia).
  unfold assign. rewrite Hget. simpl. unfold row_assign.
  destruct (Z.ltb_spec cj 0) as [?|_]; [lia|].
  rewrite array_set_in_range by done.
  eexists. split; [done|]. split.
  - destruct Hg as [Hlen Hrows]. split; [by rewrite length_insert|].
    apply Forall_insert; [done|]. by apply wf_row_insert.
  - intros r c. unfold cellAt.
    destruct (decide (r = Z.to_nat ri)) as [->|Hne].
    + rewrite list_lookup_insert_eq by (apply lookup_lt_is_Some; eauto).
      rewrite Hrow. simpl.
      destruct (decide (c = Z.to_nat cj)) as [->|Hnc].
      * rewrite decide_True by done. by apply list_lookup_insert_eq.
      * rewrite decide_False by (intros [_ ?]; done).
        by apply list_lookup_insert_ne.
    + rewrite list_lookup_insert_ne by done.
      by rewrite decide_False by (intros [? _]; done).
Qed.

Section WriteLoop.

(** The anchor and the colour of the block being written. *)
Context (r c : Z) (col : string).

Lemma writeRow_on_board (g : Grid) (i j : nat) (cells : list Z) :
  wf_grid g →
  (∀ k, cells !! k = Some 1 → on_board (r + Z.of_nat i) (c + Z.of_nat (j + k))) →
  ∃ g', writeRow g r c i j col cells = Some g' ∧ wf_grid g' ∧
    ∀ r' c', painted (row_covers r c i j cells r' c') col
                     (cellAt g r' c') (cellAt g' r' c').
Proof.
  revert g j. induction cells as [|v rest IH]; intros g j Hg Hin; simpl.
  { exists g. split; [done|]. split; [done|]. intros r' c'. right.
    split; [|done]. intros (k & Hk & _). done. }
  assert (∀ k, rest !! k = Some 1 →
               on_board (r + Z.of_nat i) (c + Z.of_nat (S j + k))) as Hrest.
  { intros k Hk. replace (S j + k)%nat with (j + S k)%nat by lia. by apply Hin. }
  destruct (Z.eqb_spec v 1) as [->|Hv].
  - specialize (Hin 0%nat eq_refl) as H0. rewrite Nat.add_0_r in H0.
    destruct (assign_on_board g _ _ (Color col) Hg H0) as (g1 & Hg1 & Hwf1 & Hcell1);
      [done|].
    rewrite Hg1. simpl.
    destruct (IH g1 (S j) Hwf1 Hrest) as (g' & Hg' & Hwf' & Hcell').
    exists g'. split; [done|]. split; [done|]. intros r' c'.
    destruct (Hcell' r' c') as [[(k & Hk & Hr & Hc) Hp]|[Hn Hsame]].
    + left. split; [|done]. exists (S k). split; [done|]. split; [done|].
      by replace (j + S k)%nat with (S j + k)%nat by lia.
    + rewrite Hcell1 in Hsame.
      destruct (decide (r' = Z.to_nat (r + Z.of_nat i)
                        ∧ c' = Z.to_nat (c + Z.of_nat j))) as [[Hr Hc]|Hne].
      * left. split; [|done]. exists 0%nat. split; [done|].
        destruct H0 as [[? ?] [? ?]]. rewrite Nat.add_0_r. lia.
      * right. split; [|done]. intros ([|k] & Hk & Hr & Hc).
        -- apply Hne. rewrite Nat.add_0_r in Hc. lia.
        -- apply Hn. exists k. split; [done|]. split; [done|].
           by replace (S j + k)%nat with (j + S k)%nat by lia.
  - simpl. destruct (IH g (S j) Hg Hrest) as (g' & Hg' & Hwf' & Hcell').
    exists g'. split; [done|]. split; [done|]. intros r' c'.
    destruct (Hcell' r' c') as [[(k & Hk & Hr & Hc) Hp]|[Hn Hsame]].
    + left. split; [|done]. exists (S k). split; [done|]. split; [done|].
      by replace (j + S k)%nat with (S j + k)%nat by lia.
    + right. split; [|done]. intros ([|k] & Hk & Hr & Hc); simpl in Hk.
      * congruence.
      * apply Hn. exists k. split; [done|]. split; [done|].
        by replace (S j + k)%nat with (j + S k)%nat by lia.
Qed.

Lemma writeRows_on_board (g : Grid) (i : nat) (rows : list (list Z)) :
  wf_grid g →
  (∀ k cells m, rows !! k = Some cells → cells !! m = Some 1 →
                on_board (r + Z.of_nat (i + k)) (c + Z.of_nat m)) →
  ∃ g', writeRows g r c i col rows = Some g' ∧ wf_grid g' ∧
    ∀ r' c', painted (rows_cover r c i rows r' c') col
                     (cellAt g r' c') (cellAt g' r' c').
Proof.
  revert g i. induction rows as [|cells0 rest IH]; intros g i Hg Hin; simpl.
  { exists g. split; [done|]. split; [done|]. intros r' c'. right.
    split; [|done]. intros (k & cells & m & Hk & _). done. }
  destruct (writeRow_on_board g i 0 cells0 Hg) as (g1 & Hg1 & Hwf1 & Hcell1).
  { intros m Hm. specialize (Hin 0%nat cells0 m eq_refl Hm).
    by rewrite Nat.add_0_r in Hin. }
  rewrite Hg1. simpl.
  destruct (IH g1 (S i) Hwf1) as (g' & Hg' & Hwf' & Hcell').
  { intros k cells m Hk Hm. replace (S i + k)%nat with (i + S k)%nat by lia.
    by apply (Hin (S k) cells m). }
  exists g'. split; [done|]. split; [done|]. intros r' c'.
  destruct (Hcell' r' c') as [[(k & cells & m & Hk & Hm & Hr & Hc) Hp]|[Hn Hsame]].
  - left. split; [|done]. exists (S k), cells, m. split; [done|].
    split; [done|]. split; [|done]. by replace (i + S k)%nat with (S i + k)%nat by lia.
  - destruct (Hcell1 r' c') as [[(m & Hm & Hr & Hc) Hp]|[Hn1 Hsame1]].
    + left. split; [|congruence]. exists 0%nat, cells0, m. split; [done|].
      split; [done|]. by rewrite Nat.add_0_r.
    + right. split; [|congruence].
      intros ([|k] & cells & m & Hk & Hm & Hr & Hc); simpl in Hk.
      * injection Hk as <-. apply Hn1. exists m. split; [done|].
        by rewrite Nat.add_0_r in Hr.
      * apply Hn. exists k, cells, m. split; [done|]. split; [done|].
        split; [|done]. by replace (S i + k)%nat with (i + S k)%nat by lia.
Qed.

End WriteLoop.

(** After a validation that passed, the write loop succeeds, keeps the
    board well formed, and paints exactly the cells the shape covers. *)
Lemma place_after_Pass (g : Grid) (r c : Z) (b : Block) :
  wf_grid g → canPlace g r c (shape b) = Pass →
  ∃ pg, place g r c b = Some pg ∧ wf_grid pg ∧
    ∀ r' c', painted (covers r c (shape b) r' c') (color b)
                     (cellAt g r' c') (cellAt pg r' c').
Proof.
  intros Hg HP. pose proof (proj1 (canPlace_Pass _ _ _ _) HP) as Hall.
  destruct (writeRows_on_board r c (color b) g 0 (shape b) Hg) as (pg & Hpg & Hwf & Hcell).
  { intros k cells m Hk Hm. simpl.
    assert (occupies (shape b) k m) as Hocc by (by exists cells).
    by destruct (proj1 (checkTarget_Pass _ _ _) (Hall k m Hocc)). }
  exists pg. split; [done|]. split; [done|]. intros r' c'.
  destruct (Hcell r' c') as [[(k & cells & m & Hk & Hm & Hr & Hc) Hp]|[Hn Hsame]].
  - left. split; [|done]. exists k, m. split; [by exists cells|done].
  - right. split; [|done]. intros (i & j & (cells & Hi & Hj) & Hr & Hc).
    apply Hn. by exists i, cells, j.
Qed.

(** A passed validation means every covered cell was empty. *)
Lemma canPlace_Pass_empty (g : Grid) (r c : Z) (sh : list (list Z)) (r' c' : nat) :
  canPlace g r c sh = Pass → covers r c sh r' c' → cellAt g r' c' = Some Null.
Proof.
  intros HP (i & j & Hocc & Hr & Hc).
  pose proof (proj1 (canPlace_Pass _ _ _ _) HP i j Hocc) as Ht.
  apply checkTarget_Pass in Ht as [_ Ht]. rewrite <- Hr, <- Hc in Ht.
  by rewrite !Nat2Z.id in Ht.
Qed.

(** ** Line detection *)

Lemma every_lookup {A : Type} (p : A → bool) (a : list A) :
  every p a = true ↔ ∀ k x, a !! k = Some x → p x = true.
Proof.
  unfold every. induction a as [|y a IH]; simpl.
  { split; [|done]. intros _ k x Hk. done. }
  rewrite andb_true_iff, IH. split.
  - intros [H1 H2] [|k] x Hk; simpl in Hk; [by injection Hk as <-|by eapply H2].
  - intros H. split; [by apply (H 0%nat)|]. intros k x Hk. by apply (H (S k)).
Qed.

Lemma readCell_of_nat (row : Row) (c : nat) :
  readCell row (Z.of_nat c) = default Undefined (row !! c).
Proof. unfold readCell. by rewrite get_of_nat. Qed.

Lemma not_null_occupied (x : Cell) :
  x ≠ Undefined → not_null x = true → ∃ col, x = Color col.
Proof. destruct x as [| |col]; [done..|]. intros _ _. by exists col. Qed.

(** The test of line 75 finds the fully occupied rows. *)
Lemma row_full_iff (g : Grid) (r : nat) (row : Row) :
  wf_grid g → (r < GRID_SIZE)%nat → g !! r = Some row →
  every not_null row = true ↔ full_row g r.
Proof.
  intros Hg Hr Hrow.
  destruct (wf_grid_lookup g r Hg Hr) as (row' & Hrow' & Hwf).
  assert (row' = row) as -> by congruence.
  rewrite every_lookup. split.
  - intros H c Hc. destruct (wf_row_lookup row c Hwf Hc) as (x & Hx & Hne).
    destruct (not_null_occupied x Hne (H c x Hx)) as [col ->].
    exists col. unfold cellAt. by rewrite Hrow.
  - intros H k x Hk.
    assert (k < GRID_SIZE)%nat as Hk8.
    { destruct Hwf as [<- _]. by eapply lookup_lt_Some. }
    destruct (H k Hk8) as [col Hcol]. unfold cellAt in Hcol.
    rewrite Hrow in Hcol. simpl in Hcol. by assert (x = Color col) as -> by congruence.
Qed.

(** The test of line 76 finds the fully occupied columns. *)
Lemma col_full_iff (g : Grid) (c : nat) :
  wf_grid g → (c < GRID_SIZE)%nat → colFull g c = true ↔ full_col g c.
Proof.
  intros Hg Hc. unfold colFull. rewrite every_lookup. split.
  - intros H r Hr. destruct (wf_grid_lookup g r Hg Hr) as (row & Hrow & Hwf).
    destruct (wf_row_lookup row c Hwf Hc) as (x & Hx & Hne).
    specialize (H r row Hrow). rewrite readCell_of_nat, Hx in H. simpl in H.
    destruct (not_null_occupied x Hne H) as [col ->].
    exists col. unfold cellAt. by rewrite Hrow.
  - intros H k row Hk.
    assert (k < GRID_SIZE)%nat as Hk8.
    { destruct Hg as [<- _]. by eapply lookup_lt_Some. }
    destruct (H k Hk8) as [col Hcol]. unfold cellAt in Hcol.
    rewrite Hk in Hcol. simpl in Hcol. by rewrite readCell_of_nat, Hcol.
Qed.

Lemma scanRows_spec (g : Grid) (rs : list nat) :
  wf_grid g → Forall (λ r, r < GRID_SIZE)%nat rs →
  ∃ rows, scanRows g rs = Some rows ∧ sublist rows rs ∧
          ∀ r, r ∈ rows ↔ r ∈ rs ∧ full_row g r.
Proof.
  intros Hg. induction rs as [|r0 rs IH]; intros Hrs; simpl.
  { exists []. split; [done|]. split; [done|]. intros r. split.
    - intros H. by apply elem_of_nil in H.
    - intros [H _]. by apply elem_of_nil in H. }
  apply Forall_cons in Hrs as [Hr0 Hrs].
  destruct (IH Hrs) as (rows & Hscan & Hsub & Hmem).
  destruct (wf_grid_lookup g r0 Hg Hr0) as (row & Hrow & Hwf).
  rewrite Hrow, Hscan. simpl.
  pose proof (row_full_iff g r0 row Hg Hr0 Hrow) as Hfull.
  destruct (every not_null row) eqn:E.
  - exists (r0 :: rows). split; [done|]. split; [by apply sublist_skip|].
    intros r. rewrite !elem_of_cons, Hmem. split.
    + intros [->|[? ?]]; [|by auto]. split; [by left|by apply Hfull].
    + intros [[->|?] ?]; [by left|by right].
  - exists rows. split; [done|]. split; [by apply sublist_cons|].
    intros r. rewrite elem_of_cons, Hmem. split.
    + intros [? ?]. by auto.
    + intros [[->|?] Hf]; [|done]. apply Hfull in Hf. congruence.
Qed.

Lemma rowsToClear_spec (g : Grid) :
  wf_grid g →
  ∃ rows, rowsToClear g = Some rows ∧ NoDup rows ∧
          ∀ r, r ∈ rows ↔ (r < GRID_SIZE)%nat ∧ full_row g r.
Proof.
  intros Hg. destruct (scanRows_spec g (seq 0 GRID_SIZE) Hg) as (rows & Hs & Hsub & Hmem).
  { apply Forall_forall. intros r Hr. apply elem_of_seq in Hr. lia. }
  exists rows. split; [done|]. split.
  - eapply sublist_NoDup; [apply NoDup_seq|exact Hsub].
  - intros r. rewrite Hmem, elem_of_seq. split; intros [? ?]; (split; [lia|done]).
Qed.

Lemma colsToClear_spec (g : Grid) :
  wf_grid g →
  NoDup (colsToClear g) ∧
  ∀ c, c ∈ colsToClear g ↔ (c < GRID_SIZE)%nat ∧ full_col g c.
Proof.
  intros Hg. unfold colsToClear. split.
  - apply NoDup_filter, NoDup_seq.
  - intros c. rewrite list_elem_of_filter, elem_of_seq. split.
    + intros [Hf Hc]. split; [lia|]. apply col_full_iff; [done|lia|done].
    + intros [Hc Hf]. split; [|lia]. by apply col_full_iff.
Qed.

(** Two duplicate-free enumerations of the same lines have the same
    length: the count of full lines does not depend on how they are
    listed. *)
Lemma detected_count (g : Grid) (rows cols rows' cols' : list nat) :
  detected g rows cols → detected g rows' cols' →
  length rows' = length rows ∧ length cols' = length cols.
Proof.
  intros (Hr & Hc & Hrm & Hcm) (Hr' & Hc' & Hrm' & Hcm'). split.
  - apply Permutation_length, NoDup_Permutation; [done..|].
    intros r. by rewrite Hrm, Hrm'.
  - apply Permutation_length, NoDup_Permutation; [done..|].
    intros c. by rewrite Hcm, Hcm'.
Qed.

(** ** Clearing *)

Lemma clear_row_step (g : Grid) (r0 : nat) :
  wf_grid g → (r0 < GRID_SIZE)%nat →
  let g' := alter (λ row : Row, replicate (length row) Null) r0 g in
  wf_grid g' ∧
  ∀ r c, (c < GRID_SIZE)%nat →
         cellAt g' r c = if decide (r = r0) then Some Null else cellAt g r c.
Proof.
  intros Hg Hr0 g'. subst g'. split.
  - destruct Hg as [Hlen Hrows]. split; [by rewrite length_alter|].
    apply Forall_alter; [done|]. intros row _ [Hl _]. split.
    + by rewrite length_replicate.
    + by apply Forall_replicate.
  - intros r c Hc. unfold cellAt. destruct (decide (r = r0)) as [->|Hne].
    + rewrite list_lookup_alter_eq.
      destruct (wf_grid_lookup g r0 Hg Hr0) as (row & -> & [Hl _]). simpl.
      apply lookup_replicate_2. by rewrite Hl.
    + by rewrite list_lookup_alter_ne.
Qed.

Lemma clearRows_spec (rows : list nat) (g : Grid) :
  wf_grid g → Forall (λ r, r < GRID_SIZE)%nat rows →
  wf_grid (clearRows rows g) ∧
  ∀ r c, (c < GRID_SIZE)%nat →
         cellAt (clearRows rows g) r c =
         if decide (r ∈ rows) then Some Null else cellAt g r c.
Proof.
  revert g. induction rows as [|r0 rows IH]; intros g Hg Hrows.
  { split; [done|]. intros r c _. rewrite decide_False; [done|].
    intros H. by apply elem_of_nil in H. }
  apply Forall_cons in Hrows as [Hr0 Hrows].
  destruct (clear_row_step g r0 Hg Hr0) as [Hwf1 Hcell1].
  destruct (IH _ Hwf1 Hrows) as [Hwf Hcell].
  split; [exact Hwf|]. intros r c Hc.
  change (clearRows (r0 :: rows) g)
    with (clearRows rows (alter (λ row : Row, replicate (length row) Null) r0 g)).
  rewrite Hcell, Hcell1 by done.
  destruct (decide (r ∈ rows)) as [Hin|Hnin].
  - rewrite decide_True; [done|]. by right.
  - destruct (decide (r = r0)) as [->|Hne].
    + rewrite decide_True; [done|]. by left.
    + rewrite decide_False; [done|]. by apply not_elem_of_cons.
Qed.

Lemma clear_col_step (g : Grid) (c0 : nat) :
  wf_grid g → (c0 < GRID_SIZE)%nat →
  let g' := (λ row : Row, array_set row c0 Null) <$> g in
  wf_grid g' ∧
  ∀ r c, (r < GRID_SIZE)%nat →
         cellAt g' r c = if decide (c = c0) then Some Null else cellAt g r c.
Proof.
  intros Hg Hc0 g'. subst g'. split.
  - destruct Hg as [Hlen Hrows]. split; [by rewrite length_fmap|].
    apply Forall_fmap. eapply Forall_impl; [exact Hrows|].
    intros row Hwf. simpl. rewrite array_set_in_range.
    + by apply wf_row_insert.
    + destruct Hwf as [-> _]. done.
  - intros r c Hr. unfold cellAt. rewrite list_lookup_fmap.
    destruct (wf_grid_lookup g r Hg Hr) as (row & -> & Hwf). simpl.
    assert (c0 < length row)%nat as Hlt by (destruct Hwf as [-> _]; done).
    rewrite array_set_in_range by done.
    destruct (decide (c = c0)) as [->|Hne].
    + by apply list_lookup_insert_eq.
    + by apply list_lookup_insert_ne.
Qed.

Lemma clearCols_spec (cols : list nat) (g : Grid) :
  wf_grid g → Forall (λ c, c < GRID_SIZE)%nat cols →
  wf_grid (clearCols cols g) ∧
  ∀ r c, (r < GRID_SIZE)%nat →
         cellAt (clearCols cols g) r c =
         if decide (c ∈ cols) then Some Null else cellAt g r c.
Proof.
  revert g. induction cols as [|c0 cols IH]; intros g Hg Hcols.
  { split; [done|]. intros r c _. rewrite decide_False; [done|].
    intros H. by apply elem_of_nil in H. }
  apply Forall_cons in Hcols as [Hc0 Hcols].
  destruct (clear_col_step g c0 Hg Hc0) as [Hwf1 Hcell1].
  destruct (IH _ Hwf1 Hcols) as [Hwf Hcell].
  split; [exact Hwf|]. intros r c Hr.
  change (clearCols (c0 :: cols) g)
    with (clearCols cols ((λ row : Row, array_set row c0 Null) <$> g)).
  rewrite Hcell, Hcell1 by done.
  destruct (decide (c ∈ cols)) as [Hin|Hnin].
  - rewrite decide_True; [done|]. by right.
  - destruct (decide (c = c0)) as [->|Hne].
    + rewrite decide_True; [done|]. by left.
    + rewrite decide_False; [done|]. by apply not_elem_of_cons.
Qed.

(** [handleClears] on a well-formed board that is also the pending
    board: it does not raise, it clears exactly the detected lines, and it
    adds 200 for each of them. *)
Lemma handleClears_spec (g : Grid) (st : State) :
  wf_grid g → grid st = g →
  ∃ rows cols st',
    handleClears g st = Some st' ∧ detected g rows cols ∧
    wf_grid (grid st') ∧ cleared g (grid st') rows cols ∧
    score st' = score st + Z.of_nat (length rows + length cols) * 200 ∧
    queue st' = queue st ∧ selected st' = selected st ∧
    explosions st' = explosions st ++ explosionCells g rows cols ∧
    (rows = [] ∧ cols = [] → st' = st).
Proof.
  intros Hg Hgrid.
  destruct (rowsToClear_spec g Hg) as (rows & Hrows & Hnd & Hmem).
  destruct (colsToClear_spec g Hg) as [Hndc Hmemc].
  assert (Forall (λ r, r < GRID_SIZE)%nat rows) as Hrows8.
  { apply Forall_forall. intros r Hr. by apply Hmem in Hr as [? _]. }
  assert (Forall (λ c, c < GRID_SIZE)%nat (colsToClear g)) as Hcols8.
  { apply Forall_forall. intros c Hc. by apply Hmemc in Hc as [? _]. }
  exists rows, (colsToClear g). unfold handleClears. rewrite Hrows. simpl.
  destruct (decide (rows = [] ∧ colsToClear g = [])) as [[-> Hc]|Hsome].
  - exists st. rewrite Hc in *. split; [done|]. split; [done|].
    rewrite Hgrid. split; [done|]. split.
    { intros r c _ _. rewrite decide_False; [done|].
      intros [H|H]; by apply elem_of_nil in H. }
    split; [simpl; lia|]. split; [done|]. split; [done|].
    split; [|done]. unfold explosionCells. simpl. by rewrite app_nil_r.
  - eexists. split; [done|]. split; [done|]. simpl.
    destruct (clearRows_spec rows g Hg Hrows8) as [Hwf1 Hcell1].
    destruct (clearCols_spec (colsToClear g) _ Hwf1 Hcols8) as [Hwf2 Hcell2].
    split; [done|]. split.
    { intros r c Hr Hc. rewrite Hcell2, Hcell1 by done.
      destruct (decide (c ∈ colsToClear g)) as [Hin|Hnin].
      - rewrite decide_True; [done|]. by right.
      - destruct (decide (r ∈ rows)) as [Hinr|Hninr].
        + rewrite decide_True; [done|]. by left.
        + rewrite decide_False; [done|]. by intros [?|?]. }
    split; [done|]. split; [done|]. split; [done|]. split; [done|].
    intros [? ?]. by destruct Hsome.
Qed.

(** After the clearing of the detected lines no line is full. *)
Lemma cleared_no_full_line (g g' : Grid) (rows cols : list nat) :
  detected g rows cols → cleared g g' rows cols → no_full_line g'.
Proof.
  intros (_ & _ & Hrm & Hcm) Hcl k Hk. split.
  - intros Hfull. assert (k ∈ rows) as Hin.
    { apply Hrm. split; [done|]. intros c Hc. destruct (Hfull c Hc) as [col Hcol].
      rewrite (Hcl k c Hk Hc) in Hcol. destruct (decide _); [done|]. by exists col. }
    destruct (Hfull 0%nat) as [col Hcol]; [unfold GRID_SIZE; lia|].
    rewrite (Hcl k 0%nat Hk) in Hcol by (unfold GRID_SIZE; lia).
    rewrite decide_True in Hcol; [done|by left].
  - intros Hfull. assert (k ∈ cols) as Hin.
    { apply Hcm. split; [done|]. intros r Hr. destruct (Hfull r Hr) as [col Hcol].
      rewrite (Hcl r k Hr Hk) in Hcol. destruct (decide _); [done|]. by exists col. }
    destruct (Hfull 0%nat) as [col Hcol]; [unfold GRID_SIZE; lia|].
    rewrite (Hcl 0%nat k) in Hcol by (done || unfold GRID_SIZE; lia).
    rewrite decide_True in Hcol; [done|by right].
Qed.

(** ** The random source *)

Lemma getRandomBlock_valid (u : Q) :
  valid_draw u → catalog_entry (getRandomBlock u).
Proof.
  intros [H0 H1]. unfold getRandomBlock, catalog_entry.
  set (k := Qfloor (u * inject_Z (Z.of_nat (length SHAPES)))).
  assert (0 ≤ k) as Hk0.
  { change 0 with (Qfloor (inject_Z 0)). apply Qfloor_resp_le.
    change (inject_Z 0) with (0 * inject_Z (Z.of_nat (length SHAPES)))%Q.
    by apply Qmult_le_compat_r. }
  assert (k < 8) as Hk8.
  { rewrite Zlt_Qlt. eapply Qle_lt_trans; [apply Qfloor_le|].
    change (inject_Z 8) with (1 * inject_Z (Z.of_nat (length SHAPES)))%Q.
    by apply Qmult_lt_compat_r. }
  destruct (lookup_lt_is_Some_2 SHAPES (Z.to_nat k)) as [b Hb].
  { simpl. lia. }
  exists b. split; [by apply get_Some|]. by eapply list_elem_of_lookup_2.
Qed.

(** ** What [placeBlock] leaves alone *)

Lemma handleClears_frame (g : Grid) (st st' : State) :
  handleClears g st = Some st' →
  queue st' = queue st ∧ selected st' = selected st ∧ score st ≤ score st'.
Proof.
  unfold handleClears. destruct (rowsToClear g) as [rows|]; [simpl|done].
  destruct (decide _); intros [= <-]; simpl; (split; [done|]); (split; [done|]); lia.
Qed.

(** [placeBlock] returns [false] only from line 48, before any state
    setter has been called. *)
Lemma placeBlock_Returned_false (st st' : State) (r c : Z) (b : Block) (u : Q) :
  placeBlock st r c b u = (st', Returned false) →
  st' = st ∧ canPlace (grid st) r c (shape b) = Reject.
Proof.
  unfold placeBlock. destruct (canPlace _ _ _ _); [|by intros [= <-]|done].
  destruct (place _ _ _ _); [|done]. by destruct (handleClears _ _).
Qed.

(** [placeBlock] returns [true] only after [updateQueue]. *)
Lemma placeBlock_Returned_true (st st' : State) (r c : Z) (b : Block) (u : Q) :
  placeBlock st r c b u = (st', Returned true) →
  canPlace (grid st) r c (shape b) = Pass ∧
  queue st' = drop 1 (queue st) ++ [getRandomBlock u] ∧ selected st' = None.
Proof.
  unfold placeBlock. destruct (canPlace _ _ _ _); [|done..].
  destruct (place _ _ _ _) as [pg|]; [|done].
  destruct (handleClears _ _) as [st2|] eqn:E; [|done]. intros [= <-].
  apply handleClears_frame in E as (Hq & _ & _). simpl. by rewrite Hq.
Qed.

Lemma placeBlock_score (st : State) (r c : Z) (b : Block) (u : Q) :
  score st ≤ score (placeBlock st r c b u).1.
Proof.
  unfold placeBlock. destruct (canPlace _ _ _ _); [|done..].
  destruct (place _ _ _ _) as [pg|]; [|done].
  destruct (handleClears _ _) as [st2|] eqn:E; [|done].
  by apply handleClears_frame in E as (_ & _ & Hs).
Qed.

Lemma step_score (st : State) (a : action) : score st ≤ score (step st a).
Proof.
  destruct a as [i|r c u|]; simpl.
  - unfold onQueueClick. by destruct (queue st !! i).
  - unfold onCellClick. destruct (selected st) as [b|]; [|done].
    pose proof (placeBlock_score st r c b u) as H.
    by destruct (placeBlock st r c b u).
  - done.
Qed.

Lemma run_score (st : State) (tr : list action) : score st ≤ score (run st tr).
Proof.
  revert st. induction tr as [|a tr IH]; intros st; [done|].
  change (run st (a :: tr)) with (run (step st a) tr).
  pose proof (step_score st a). pose proof (IH (step st a)). lia.
Qed.

Lemma updateQueue_length (u : Q) (st : State) :
  length (queue st) = 3%nat → length (queue (updateQueue u st)) = 3%nat.
Proof. intros H. simpl. rewrite length_app, length_drop, H. done. Qed.

Lemma step_queue_length (st : State) (a : action) :
  length (queue st) = 3%nat → length (queue (step st a)) = 3%nat.
Proof.
  intros H. destruct a as [i|r c u|]; simpl.
  - unfold onQueueClick. by destruct (queue st !! i).
  - unfold onCellClick. destruct (selected st) as [b|]; [|done].
    destruct (placeBlock st r c b u) as [st' [[|]|]] eqn:E; simpl.
    + apply placeBlock_Returned_true in E as (_ & -> & _).
      by rewrite length_app, length_drop, H.
    + by apply placeBlock_Returned_false in E as [-> _].
    + revert E. unfold placeBlock. destruct (canPlace _ _ _ _); [|done|by intros [= <-]].
      destruct (place _ _ _ _); [|by intros [= <-]].
      destruct (handleClears _ _); [done|]. by intros [= <-].
  - done.
Qed.

(** ** An accepted placement *)

Lemma placeBlock_accept (st : State) (r c : Z) (b : Block) (u : Q) :
  wf_grid (grid st) → canPlace (grid st) r c (shape b) = Pass →
  ∃ pg rows cols st',
    place (grid st) r c b = Some pg ∧
    placeBlock st r c b u = (st', Returned true) ∧
    wf_grid pg ∧ detected pg rows cols ∧
    wf_grid (grid st') ∧ cleared pg (grid st') rows cols ∧
    score st' = score st + Z.of_nat (length rows + length cols) * 200 ∧
    explosions st' = explosions st ++ explosionCells pg rows cols ∧
    (rows = [] ∧ cols = [] → grid st' = pg).
Proof.
  intros Hg HP. destruct (place_after_Pass _ _ _ _ Hg HP) as (pg & Hpg & Hwf & _).
  destruct (handleClears_spec pg (setGrid pg st) Hwf eq_refl)
    as (rows & cols & st2 & Hh & Hdet & Hwf2 & Hcl & Hsc & _ & _ & Hex & Hnone).
  exists pg, rows, cols, (updateQueue u st2).
  split; [done|]. split.
  { unfold placeBlock. by rewrite HP, Hpg, Hh. }
  split; [done|]. split; [done|]. split; [done|]. split; [done|].
  split; [done|]. split; [done|]. intros Hno. by rewrite (Hnone Hno).
Qed.

(** However a call of [placeBlock] ends, the board stays well formed and
    without a full line. *)
Lemma placeBlock_grid_invariant (st : State) (r c : Z) (b : Block) (u : Q) :
  wf_grid (grid st) → no_full_line (grid st) →
  wf_grid (grid (placeBlock st r c b u).1) ∧
  no_full_line (grid (placeBlock st r c b u).1).
Proof.
  intros Hg Hnf. destruct (canPlace (grid st) r c (shape b)) eqn:E.
  - destruct (placeBlock_accept st r c b u Hg E)
      as (pg & rows & cols & st' & _ & -> & _ & Hdet & Hwf & Hcl & _).
    split; [done|]. by eapply cleared_no_full_line.
  - unfold placeBlock. by rewrite E.
  - unfold placeBlock. by rewrite E.
Qed.

Lemma no_full_line_emptyGrid : no_full_line emptyGrid.
Proof.
  assert (∀ k, (k < GRID_SIZE)%nat → cellAt emptyGrid k 0 = Some Null
                                     ∧ cellAt emptyGrid 0 k = Some Null) as H.
  { intros k Hk. unfold cellAt, emptyGrid. split.
    - rewrite lookup_replicate_2 by done. done.
    - rewrite lookup_replicate_2 by (unfold GRID_SIZE; lia).
      change (replicate GRID_SIZE Null !! k = Some Null).
      by apply lookup_replicate_2. }
  intros k Hk. destruct (H k Hk) as [H1 H2]. split; intros Hfull.
  - destruct (Hfull 0%nat) as [col Hcol]; [unfold GRID_SIZE; lia|]. congruence.
  - destruct (Hfull 0%nat) as [col Hcol]; [unfold GRID_SIZE; lia|]. congruence.
Qed.

Lemma step_invariant (st : State) (a : action) :
  invariant st → valid_action a → invariant (step st a).
Proof.
  intros (Hg & Hnf & Hlen & Hq & Hs) Hv.
  pose proof (step_score st a) as Hsc.
  pose proof (step_queue_length st a Hlen) as Hlen'.
  split; [|split; [|split; [done|split; [|lia]]]];
    destruct a as [i|r c u|]; simpl; simpl in Hv.
  - unfold onQueueClick. by destruct (queue st !! i).
  - unfold onCellClick. destruct (selected st) as [b|]; [|done].
    destruct (placeBlock_grid_invariant st r c b u Hg Hnf) as [H _].
    by destruct (placeBlock st r c b u).
  - done.
  - unfold onQueueClick. by destruct (queue st !! i).
  - unfold onCellClick. destruct (selected st) as [b|]; [|done].
    destruct (placeBlock_grid_invariant st r c b u Hg Hnf) as [_ H].
    by destruct (placeBlock st r c b u).
  - done.
  - unfold onQueueClick. by destruct (queue st !! i).
  - unfold onCellClick. destruct (selected st) as [b|]; [|done].
    destruct (placeBlock st r c b u) as [st' [[|]|]] eqn:E; simpl.
    + apply placeBlock_Returned_true in E as (_ & -> & _).
      apply Forall_app. split; [by apply Forall_drop|].
      apply Forall_singleton. by apply getRandomBlock_valid.
    + by apply placeBlock_Returned_false in E as [-> _].
    + revert E. unfold placeBlock. destruct (canPlace _ _ _ _); [|done|by intros [= <-]].
      destruct (place _ _ _ _); [|by intros [= <-]].
      destruct (handleClears _ _); [done|]. by intros [= <-].
  - done.
Qed.

Lemma reachable_invariant (st : State) : reachable st → invariant st.
Proof.
  induction 1 as [u1 u2 u3 H1 H2 H3|st a _ IH Hv].
  - split; [apply wf_emptyGrid|]. split; [apply no_full_line_emptyGrid|].
    split; [done|]. split; [|done]. simpl.
    repeat (apply Forall_cons; split; [by apply getRandomBlock_valid|]).
    apply Forall_nil_2.
  - by apply step_invariant.
Qed.

Lemma NoDup_only (l : list nat) (a : nat) :
  NoDup l → (∀ x, x ∈ l ↔ x = a) → l = [a].
Proof.
  intros Hnd Hmem. apply Permutation_singleton_r.
  apply NoDup_Permutation; [done|apply NoDup_singleton|].
  intros x. by rewrite Hmem, list_elem_of_singleton.
Qed.

Lemma no_full_line_detected (g : Grid) (rows cols : list nat) :
  detected g rows cols → no_full_line g → rows = [] ∧ cols = [].
Proof.
  intros (_ & _ & Hrm & Hcm) Hnf. split.
  - destruct rows as [|r rows]; [done|].
    destruct (proj1 (Hrm r)) as [Hr Hf]; [by left|]. by destruct (Hnf r Hr).
  - destruct cols as [|c cols]; [done|].
    destruct (proj1 (Hcm c)) as [Hc Hf]; [by left|]. by destruct (Hnf c Hc).
Qed.

(** * The claims *)

(** C1. A rejected placement changes nothing.  If [placeBlock] returns
    [false] for the selected block, then the rejection came from the
    validation loop, and the state after the call (board, score, queue,
    selection and pending explosions) is the state before it; the click
    handler reports the rejection with the same unchanged state. *)
Theorem rejected_placement_changes_nothing (st : State) (r c : Z) (b : Block) (u : Q) :
  selected st = Some b →
  (placeBlock st r c b u).2 = Returned false →
  canPlace (grid st) r c (shape b) = Reject ∧
  placeBlock st r c b u = (st, Returned false) ∧
  onCellClick st r c u = (st, Attempted (Returned false)).
Proof.
  intros Hsel Hret. destruct (placeBlock st r c b u) as [st' o] eqn:E.
  simpl in Hret. subst o.
  destruct (placeBlock_Returned_false _ _ _ _ _ _ E) as [-> Hrej].
  split; [done|]. split; [done|]. unfold onCellClick. by rewrite Hsel, E.
Qed.

(** C2 (as amended).  For every shape, so for every shape of the catalog,
    and every anchor whose row is not negative (its column may be
    negative): if some occupied offset maps outside the board, the
    validation loop returns [false] without raising, and [placeBlock]
    leaves the state unchanged. *)
Theorem off_board_rejected (st : State) (r c : Z) (b : Block) (u : Q) :
  wf_grid (grid st) → 0 ≤ r →
  (∃ i j, occupies (shape b) i j ∧ ¬ on_board (r + Z.of_nat i) (c + Z.of_nat j)) →
  canPlace (grid st) r c (shape b) = Reject ∧
  placeBlock st r c b u = (st, Returned false).
Proof.
  intros Hg Hr (i & j & Hocc & Hout).
  assert (canPlace (grid st) r c (shape b) = Reject) as Hrej.
  { pose proof (canPlace_no_crash (grid st) r c (shape b) Hg Hr) as Hnc.
    destruct (canPlace (grid st) r c (shape b)) eqn:E; [|done..].
    pose proof (proj1 (canPlace_Pass _ _ _ _) E i j Hocc) as Ht.
    by apply checkTarget_Pass in Ht as [? _]. }
  split; [done|]. unfold placeBlock. by rewrite Hrej.
Qed.

(** C3. A placement that makes exactly row [r0] and column [c0] of the
    post-placement board full is accepted; both lines are found on the
    post-placement board and cleared together: every cell of the row and of
    the column, their intersection included, ends empty, the other cells
    keep what the placement left, both lines are in the explosion event,
    and the score grows by exactly 400. *)
Theorem row_and_column_clear_together (st : State) (r c : Z) (b : Block) (u : Q)
    (pg : Grid) (r0 c0 : nat) :
  wf_grid (grid st) →
  canPlace (grid st) r c (shape b) = Pass →
  place (grid st) r c b = Some pg →
  (r0 < GRID_SIZE)%nat → (c0 < GRID_SIZE)%nat →
  (∀ k, (k < GRID_SIZE)%nat → full_row pg k ↔ k = r0) →
  (∀ k, (k < GRID_SIZE)%nat → full_col pg k ↔ k = c0) →
  ∃ st', placeBlock st r c b u = (st', Returned true) ∧
    score st' = score st + 400 ∧
    (∀ k, (k < GRID_SIZE)%nat →
          cellAt (grid st') r0 k = Some Null ∧ cellAt (grid st') k c0 = Some Null) ∧
    cellAt (grid st') r0 c0 = Some Null ∧
    (∀ i j, (i < GRID_SIZE)%nat → (j < GRID_SIZE)%nat → i ≠ r0 → j ≠ c0 →
            cellAt (grid st') i j = cellAt pg i j) ∧
    explosions st' = explosions st
                     ++ ((λ k, (r0, k)) <$> seq 0 GRID_SIZE)
                     ++ ((λ k, (k, c0)) <$> seq 0 GRID_SIZE).
Proof.
  intros Hg HP Hpg Hr0 Hc0 Hrow Hcol.
  destruct (placeBlock_accept st r c b u Hg HP)
    as (pg' & rows & cols & st' & Hpg' & Hpb & Hwf & Hdet & Hwf' & Hcl & Hsc & Hex & _).
  assert (pg' = pg) as -> by congruence.
  destruct Hdet as (Hnr & Hnc & Hrm & Hcm).
  assert (rows = [r0]) as ->.
  { apply NoDup_only; [done|]. intros k. rewrite Hrm. split.
    - intros [Hk Hf]. by apply Hrow.
    - intros ->. split; [done|]. by apply Hrow. }
  assert (cols = [c0]) as ->.
  { apply NoDup_only; [done|]. intros k. rewrite Hcm. split.
    - intros [Hk Hf]. by apply Hcol.
    - intros ->. split; [done|]. by apply Hcol. }
  exists st'. split; [done|]. split; [by rewrite Hsc|].
  assert (∀ k, (k < GRID_SIZE)%nat →
               cellAt (grid st') r0 k = Some Null ∧ cellAt (grid st') k c0 = Some Null) as Hline.
  { intros k Hk. split.
    - rewrite (Hcl r0 k Hr0 Hk). rewrite decide_True; [done|]. left. by left.
    - rewrite (Hcl k c0 Hk Hc0). rewrite decide_True; [done|]. right. by left. }
  split; [done|]. split; [by apply Hline|]. split.
  - intros i j Hi Hj Hir Hjc. rewrite (Hcl i j Hi Hj).
    rewrite decide_False; [done|].
    intros [H|H]; apply list_elem_of_singleton in H; done.
  - rewrite Hex. unfold explosionCells. cbn [flat_map].
    destruct (wf_grid_lookup pg r0 Hwf Hr0) as (row & Hlook & [Hlen _]).
    rewrite Hlook. change (default [] (Some row)) with row.
    destruct Hwf as [Hrows _]. by rewrite Hlen, Hrows, !app_nil_r.
Qed.

(** C4. An accepted placement adds exactly 200 for each row and each
    column that is full on the post-placement board, however the full
    lines are enumerated (each once); when no line is full nothing is
    cleared, no explosion is triggered and the score stays as it was. *)
Theorem clear_score_is_200_per_line (st : State) (r c : Z) (b : Block) (u : Q) :
  wf_grid (grid st) →
  canPlace (grid st) r c (shape b) = Pass →
  ∃ pg st',
    place (grid st) r c b = Some pg ∧
    placeBlock st r c b u = (st', Returned true) ∧
    (∀ rows cols, detected pg rows cols →
       score st' = score st + (Z.of_nat (length rows) + Z.of_nat (length cols)) * 200) ∧
    (no_full_line pg →
       score st' = score st ∧ grid st' = pg ∧ explosions st' = explosions st).
Proof.
  intros Hg HP.
  destruct (placeBlock_accept st r c b u Hg HP)
    as (pg & rows & cols & st' & Hpg & Hpb & Hwf & Hdet & Hwf' & Hcl & Hsc & Hex & Hnone).
  exists pg, st'. split; [done|]. split; [done|]. split.
  - intros rows' cols' Hdet'.
    destruct (detected_count pg rows cols rows' cols' Hdet Hdet') as [-> ->].
    rewrite Hsc. lia.
  - intros Hnf. destruct (no_full_line_detected pg rows cols Hdet Hnf) as [-> ->].
    split; [rewrite Hsc; simpl; lia|]. split; [by apply Hnone|].
    rewrite Hex. unfold explosionCells. simpl. by rewrite app_nil_r.
Qed.

(** C5 (as amended).  For an anchor with row and column not negative,
    the validation loop returns [false] exactly when some occupied offset
    has [r + i >= N], or [c + j >= N], or an occupied target cell on the
    board before the placement; otherwise it runs to its end. *)
Theorem canPlace_rejects_iff_blocked (g : Grid) (r c : Z) (sh : list (list Z)) :
  wf_grid g → 0 ≤ r → 0 ≤ c →
  (canPlace g r c sh = Reject ↔ blocked g r c sh) ∧
  (canPlace g r c sh = Pass ↔ ¬ blocked g r c sh).
Proof.
  intros Hg Hr Hc.
  pose proof (canPlace_no_crash g r c sh Hg Hr) as Hnc.
  assert (canPlace g r c sh = Reject → blocked g r c sh) as H1.
  { intros E. assert (Reject ≠ Pass) as Hx by done.
    destruct (canPlace_stop _ _ _ _ _ Hx E) as (i & j & Hocc & Ht).
    exists i, j. split; [done|]. apply checkTarget_Reject in Ht; [done|done|lia|lia]. }
  assert (blocked g r c sh → canPlace g r c sh ≠ Pass) as H2.
  { intros (i & j & Hocc & Hwhy) E.
    pose proof (proj1 (canPlace_Pass _ _ _ _) E i j Hocc) as Ht.
    assert (checkTarget g (r + Z.of_nat i) (c + Z.of_nat j) = Reject) as Ht'.
    { apply checkTarget_Reject; [done|lia|lia|done]. }
    congruence. }
  split; split.
  - exact H1.
  - intros Hb. specialize (H2 Hb). by destruct (canPlace g r c sh).
  - intros E Hb. by apply H2.
  - intros Hnb. destruct (canPlace g r c sh) eqn:E; [done| |done].
    destruct Hnb. by apply H1.
Qed.

(** C6. In every state of a session the queue holds exactly three
    definitions of the catalog: the first state has three, and every event
    (a selection, a rejected or an accepted placement, the explosion
    timer) keeps three; after an accepted placement the selection is
    none. *)
Theorem queue_always_three (st : State) (a : action) :
  reachable st → valid_action a →
  length (queue st) = 3%nat ∧ Forall catalog_entry (queue st) ∧
  length (queue (step st a)) = 3%nat ∧ Forall catalog_entry (queue (step st a)) ∧
  (∀ r c u, (onCellClick st r c u).2 = Attempted (Returned true) →
            selected (onCellClick st r c u).1 = None).
Proof.
  intros Hst Ha.
  destruct (reachable_invariant st Hst) as (_ & _ & Hlen & Hq & _).
  destruct (reachable_invariant (step st a)) as (_ & _ & Hlen' & Hq' & _).
  { by apply reachable_step. }
  split; [done|]. split; [done|]. split; [done|]. split; [done|].
  intros r c u. unfold onCellClick. destruct (selected st) as [b|]; [|done].
  destruct (placeBlock st r c b u) as [st' o] eqn:E. simpl. intros [= ->].
  by apply placeBlock_Returned_true in E as (_ & _ & ?).
Qed.

(** C7. [updateQueue] drops the front entry of the queue and appends the
    newly drawn block at the back, keeping the order of the other two;
    an accepted placement replenishes the queue in this way whichever
    block was placed. *)
Theorem updateQueue_drops_front (st : State) (u : Q) (e1 e2 e3 : option Block) :
  queue st = [e1; e2; e3] →
  queue (updateQueue u st) = [e2; e3; getRandomBlock u] ∧
  (∀ r c b st', placeBlock st r c b u = (st', Returned true) →
                queue st' = [e2; e3; getRandomBlock u]).
Proof.
  intros Hq. split.
  - simpl. by rewrite Hq.
  - intros r c b st' E. apply placeBlock_Returned_true in E as (_ & -> & _).
    by rewrite Hq.
Qed.

(** C8. With no block selected a click on a board cell does nothing: the
    handler ends normally and the state is unchanged. *)
Theorem click_without_selection (st : State) (r c : Z) (u : Q) :
  selected st = None →
  onCellClick st r c u = (st, NoSelection) ∧ step st (ClickCell r c u) = st.
Proof. intros H. unfold step, onCellClick. by rewrite H. Qed.

(** C9. After every placement attempt in a session, accepted or not, no
    row and no column of the board is fully occupied. *)
Theorem no_full_line_after_attempt (st : State) (r c : Z) (u : Q) :
  reachable st →
  no_full_line (grid (onCellClick st r c u).1).
Proof.
  intros Hst. destruct (reachable_invariant st Hst) as (Hg & Hnf & _).
  unfold onCellClick. destruct (selected st) as [b|]; [|done].
  destruct (placeBlock_grid_invariant st r c b u Hg Hnf) as [_ H].
  by destruct (placeBlock st r c b u).
Qed.

(** C10. The score starts at 0, no event ever lowers it, and it is never
    negative during a session. *)
Theorem score_never_decreases :
  (∀ u1 u2 u3, score (initState u1 u2 u3) = 0) ∧
  (∀ st a, score st ≤ score (step st a)) ∧
  (∀ u1 u2 u3 tr, 0 ≤ score (run (initState u1 u2 u3) tr)).
Proof.
  split; [done|]. split; [apply step_score|].
  intros u1 u2 u3 tr. apply (run_score (initState u1 u2 u3) tr).
Qed.

(** * The claims on the scenarios *)

Ltac by_evaluation := apply (bool_decide_unpack _); vm_compute; exact I.

Lemma valid_draw_three_eighths : valid_draw (3 # 8).
Proof. split; unfold Qle, Qlt; simpl; lia. Defined.

Lemma reachable_run (st : State) (tr : list action) :
  reachable st → Forall valid_action tr → reachable (run st tr).
Proof.
  revert st. induction tr as [|a tr IH]; intros st Hst Htr; [done|].
  apply Forall_cons in Htr as [Ha Htr].
  change (run st (a :: tr)) with (run (step st a) tr).
  apply IH; [|done]. by apply reachable_step.
Defined.

Lemma reachable_halfRowState : reachable halfRowState.
Proof.
  apply reachable_run.
  - apply reachable_init; apply valid_draw_three_eighths.
  - repeat (apply Forall_cons; split; [exact I || apply valid_draw_three_eighths|]).
    apply Forall_nil_2.
Defined.

(** The square at anchor [(7, 7)] would occupy row and column 8: the
    placement is rejected and the session is as before. *)
Lemma rejected_placement_changes_nothing_witness :
  selected squareState = Some Square ∧
  canPlace (grid squareState) 7 7 (shape Square) = Reject ∧
  placeBlock squareState 7 7 Square 0 = (squareState, Returned false) ∧
  onCellClick squareState 7 7 0 = (squareState, Attempted (Returned false)).
Proof.
  split; [reflexivity|].
  apply (rejected_placement_changes_nothing squareState 7 7 Square 0);
    vm_compute; reflexivity.
Defined.

(** C2, counterexample.  The square anchored at [(-1, 0)] on the empty
    board: its offset [(0, 0)] maps to row [-1], outside the board, and
    line 47 reads [newGrid[-1][0]], which raises a TypeError instead of
    returning [false]. *)
Lemma negative_row_anchor_raises :
  Square ∈ SHAPES ∧
  occupies (shape Square) 0 0 ∧
  ¬ on_board (-1 + Z.of_nat 0) (0 + Z.of_nat 0) ∧
  canPlace emptyGrid (-1) 0 (shape Square) = Crash ∧
  placeBlock squareState (-1) 0 Square 0 = (squareState, Threw).
Proof.
  split; [by left|]. split; [by exists [1; 1]|].
  split; [unfold on_board; simpl; lia|]. split; reflexivity.
Qed.

(** The square anchored at [(0, -1)]: column [-1] is off the board, the
    read [row[-1]] gives [undefined], and the placement is rejected. *)
Lemma off_board_rejected_witness :
  canPlace (grid squareState) 0 (-1) (shape Square) = Reject ∧
  placeBlock squareState 0 (-1) Square 0 = (squareState, Returned false).
Proof.
  apply (off_board_rejected squareState 0 (-1) Square 0).
  - by_evaluation.
  - lia.
  - exists 0%nat, 0%nat. split; [by exists [1; 1]|].
    unfold on_board. simpl. lia.
Defined.

(** The vertical line at [(5, 0)] on the corner board completes row 7 and
    column 0: both are cleared and the score goes from 600 to 1000. *)
Lemma row_and_column_clear_together_witness :
  ∃ st', placeBlock cornerState 5 0 VerticalLine 0 = (st', Returned true) ∧
    score st' = 600 + 400 ∧
    (∀ k, (k < GRID_SIZE)%nat →
          cellAt (grid st') 7 k = Some Null ∧ cellAt (grid st') k 0 = Some Null) ∧
    cellAt (grid st') 7 0 = Some Null ∧
    (∀ i j, (i < GRID_SIZE)%nat → (j < GRID_SIZE)%nat → i ≠ 7%nat → j ≠ 0%nat →
            cellAt (grid st') i j = cellAt cornerPlaced i j) ∧
    explosions st' = explosions cornerState
                     ++ ((λ k, (7%nat, k)) <$> seq 0 GRID_SIZE)
                     ++ ((λ k, (k, 0%nat)) <$> seq 0 GRID_SIZE).
Proof.
  apply (row_and_column_clear_together cornerState 5 0 VerticalLine 0 cornerPlaced 7 0).
  - by_evaluation.
  - reflexivity.
  - reflexivity.
  - unfold GRID_SIZE. lia.
  - unfold GRID_SIZE. lia.
  - intros k Hk.
    do 8 (destruct k as [|k]; [by_evaluation|]). unfold GRID_SIZE in Hk. lia.
  - intros k Hk.
    do 8 (destruct k as [|k]; [by_evaluation|]). unfold GRID_SIZE in Hk. lia.
Defined.

(** The second 1x4 line at [(0, 4)] completes row 0: the score becomes
    200. *)
Lemma clear_score_is_200_per_line_witness :
  ∃ pg st',
    place (grid halfRowState) 0 4 Line4 = Some pg ∧
    placeBlock halfRowState 0 4 Line4 (3 # 8) = (st', Returned true) ∧
    (∀ rows cols, detected pg rows cols →
       score st' = score halfRowState
                   + (Z.of_nat (length rows) + Z.of_nat (length cols)) * 200) ∧
    (no_full_line pg →
       score st' = score halfRowState ∧ grid st' = pg
       ∧ explosions st' = explosions halfRowState).
Proof.
  apply (clear_score_is_200_per_line halfRowState 0 4 Line4 (3 # 8)).
  - by_evaluation.
  - reflexivity.
Defined.

(** C5, counterexample.  On the empty board the square anchored at
    [(0, -1)] is rejected although none of the three reasons holds: no
    target index reaches 8 and no target cell is occupied.  And on the
    board with one occupied cell the vertical line anchored at [(-1, 0)]
    targets that occupied cell, yet the validation raises instead of
    returning [false]. *)
Lemma canPlace_negative_anchor_counterexample :
  (canPlace emptyGrid 0 (-1) (shape Square) = Reject
   ∧ ¬ blocked emptyGrid 0 (-1) (shape Square))
  ∧ (blocked oneCellBoard (-1) 0 (shape VerticalLine)
     ∧ canPlace oneCellBoard (-1) 0 (shape VerticalLine) = Crash).
Proof.
  split; split.
  - reflexivity.
  - intros (i & j & (cells & Hi & Hj) & Hwhy).
    destruct i as [|[|i]]; simpl in Hi; [| |done];
      injection Hi as <-; (destruct j as [|[|j]]; simpl in Hj; [| |done]);
      (destruct Hwhy as [H|[H|(_ & H & col & Hcol)]];
       [unfold GRID_SIZE in H; simpl in H; lia..
       |try (simpl in H; lia); vm_compute in Hcol; discriminate]).
  - exists 1%nat, 0%nat. split; [by exists [1]|]. right. right.
    split; [simpl; lia|]. split; [simpl; lia|]. by exists "#20c997"%string.
  - reflexivity.
Qed.

(** On the board with one occupied cell the square at [(0, 0)] is
    rejected, and it is blocked: its offset [(0, 0)] targets the occupied
    cell. *)
Lemma canPlace_rejects_iff_blocked_witness :
  (canPlace oneCellBoard 0 0 (shape Square) = Reject
   ↔ blocked oneCellBoard 0 0 (shape Square))
  ∧ (canPlace oneCellBoard 0 0 (shape Square) = Pass
     ↔ ¬ blocked oneCellBoard 0 0 (shape Square)).
Proof.
  apply (canPlace_rejects_iff_blocked oneCellBoard 0 0 (shape Square)).
  - by_evaluation.
  - lia.
  - lia.
Defined.

(** After the accepted placement of the second line the queue has three
    catalog entries again and nothing is selected. *)
Lemma queue_always_three_witness :
  length (queue halfRowState) = 3%nat ∧ Forall catalog_entry (queue halfRowState) ∧
  length (queue (step halfRowState (ClickCell 0 4 (3 # 8)))) = 3%nat ∧
  Forall catalog_entry (queue (step halfRowState (ClickCell 0 4 (3 # 8)))) ∧
  (∀ r c u, (onCellClick halfRowState r c u).2 = Attempted (Returned true) →
            selected (onCellClick halfRowState r c u).1 = None).
Proof.
  apply (queue_always_three halfRowState (ClickCell 0 4 (3 # 8))).
  - apply reachable_halfRowState.
  - apply valid_draw_three_eighths.
Defined.

(** The queue [Vertical line; Square; Line 4] becomes
    [Square; Line 4; new block]. *)
Lemma updateQueue_drops_front_witness :
  queue (updateQueue 0 cornerState) = [Some Square; Some Line4; getRandomBlock 0] ∧
  (∀ r c b st', placeBlock cornerState r c b 0 = (st', Returned true) →
                queue st' = [Some Square; Some Line4; getRandomBlock 0]).
Proof.
  apply (updateQueue_drops_front cornerState 0 (Some VerticalLine) (Some Square) (Some Line4)).
  reflexivity.
Defined.

(** A click on the fresh board before any selection. *)
Lemma click_without_selection_witness :
  onCellClick lineSession 0 0 (3 # 8) = (lineSession, NoSelection)
  ∧ step lineSession (ClickCell 0 0 (3 # 8)) = lineSession.
Proof.
  apply (click_without_selection lineSession 0 0 (3 # 8)). reflexivity.
Defined.

(** The placement that completes row 0 leaves no full line behind. *)
Lemma no_full_line_after_attempt_witness :
  no_full_line (grid (onCellClick halfRowState 0 4 (3 # 8)).1).
Proof.
  apply (no_full_line_after_attempt halfRowState 0 4 (3 # 8)).
  apply reachable_halfRowState.
Defined.

(** ** The scenarios of the specification *)

(** Two 1x4 lines at columns 0 and 4 of row 0 of the empty board: row 0
    is cleared and the score is 200. *)
Example two_lines_clear_row_0 :
  let st := (onCellClick halfRowState 0 4 (3 # 8)).1 in
  grid st = emptyGrid ∧ score st = 200 ∧ length (queue st) = 3%nat
  ∧ selected st = None.
Proof. repeat split; reflexivity. Qed.

(** After the first line alone nothing is cleared. *)
Example first_line_stays :
  grid halfRowState !! 0%nat
  = Some [Color "#ffa94d"; Color "#ffa94d"; Color "#ffa94d"; Color "#ffa94d";
          Null; Null; Null; Null]
  ∧ score halfRowState = 0.
Proof. split; reflexivity. Qed.

(** * Further properties of the engine *)

(** ** Validation, for every board and every integer anchor *)

Lemma checkTarget_Crash (g : Grid) (ri cj : Z) :
  checkTarget g ri cj = Crash ↔
  ri < Z.of_nat GRID_SIZE ∧ cj < Z.of_nat GRID_SIZE ∧ get g ri = None.
Proof.
  unfold checkTarget. rewrite !Z.geb_leb.
  destruct (Z.leb_spec (Z.of_nat GRID_SIZE) ri) as [Hr|Hr]; simpl.
  { split; [done|]. intros (? & _). lia. }
  destruct (Z.leb_spec (Z.of_nat GRID_SIZE) cj) as [Hc|Hc]; simpl.
  { split; [done|]. intros (_ & ? & _). lia. }
  destruct (get g ri) as [row|].
  - split; [by destruct (not_null _)|]. by intros (_ & _ & ?).
  - done.
Qed.

Lemma checkTarget_negative_row (g : Grid) (ri cj : Z) :
  ri < 0 →
  checkTarget g ri cj = if Z.of_nat GRID_SIZE <=? cj then Reject else Crash.
Proof.
  intros Hr. destruct (Z.leb_spec (Z.of_nat GRID_SIZE) cj) as [Hc|Hc].
  - unfold checkTarget. rewrite !Z.geb_leb.
    destruct (Z.of_nat GRID_SIZE <=? ri); simpl; [done|].
    by destruct (Z.leb_spec (Z.of_nat GRID_SIZE) cj); [|lia].
  - apply checkTarget_Crash. split; [unfold GRID_SIZE; lia|]. split; [done|].
    by apply get_None_neg.
Qed.

(** The loop stops at offset [(0, 0)] when that offset is occupied and
    its test does not pass. *)
Lemma canPlace_first_offset (g : Grid) (r c : Z) (cells : list Z)
    (rows : list (list Z)) :
  checkTarget g r c ≠ Pass →
  canPlace g r c ((1 :: cells) :: rows) = checkTarget g r c.
Proof.
  intros Hne. unfold canPlace. simpl. rewrite !Z.add_0_r.
  by destruct (checkTarget g r c).
Qed.

(** X1. The validation loop runs to its end exactly when every occupied
    offset of the shape targets a cell that is on the board and empty;
    this holds for every board and every integer anchor. *)
Theorem canPlace_accepts_iff (g : Grid) (r c : Z) (sh : list (list Z)) :
  canPlace g r c sh = Pass ↔
  ∀ i j, occupies sh i j →
    on_board (r + Z.of_nat i) (c + Z.of_nat j) ∧
    cellAt g (Z.to_nat (r + Z.of_nat i)) (Z.to_nat (c + Z.of_nat j)) = Some Null.
Proof.
  rewrite canPlace_Pass. split.
  - intros H i j Hocc. apply checkTarget_Pass. by apply H.
  - intros H i j Hocc. apply checkTarget_Pass. by apply H.
Qed.

(** X2. After a validation that passed, the write loop does not raise and
    gives a well-formed board on which exactly the cells the shape covers
    have changed: each was empty and now holds the colour of the block. *)
Theorem place_paints_covered_cells (g : Grid) (r c : Z) (b : Block) :
  wf_grid g → canPlace g r c (shape b) = Pass →
  ∃ pg, place g r c b = Some pg ∧ wf_grid pg ∧
    ∀ r' c',
      (covers r c (shape b) r' c' →
         cellAt g r' c' = Some Null ∧ cellAt pg r' c' = Some (Color (color b)))
      ∧ (¬ covers r c (shape b) r' c' → cellAt pg r' c' = cellAt g r' c').
Proof.
  intros Hg HP. destruct (place_after_Pass g r c b Hg HP) as (pg & Hpg & Hwf & Hcell).
  exists pg. split; [done|]. split; [done|]. intros r' c'. split.
  - intros Hcov. split; [by eapply canPlace_Pass_empty|].
    by destruct (Hcell r' c') as [[_ ?]|[? _]].
  - intros Hncov. by destruct (Hcell r' c') as [[? _]|[_ ?]].
Qed.

(** X3. A block of the catalog is never accepted at a negative row
    anchor: every catalog shape occupies its offset [(0, 0)], so line 47
    either returns [false] (column anchor 8 or more) or raises the
    TypeError (any smaller column anchor), whatever the board holds. *)
Theorem catalog_negative_row_anchor (g : Grid) (r c : Z) (b : Block) :
  b ∈ SHAPES → r < 0 →
  canPlace g r c (shape b) = if Z.of_nat GRID_SIZE <=? c then Reject else Crash.
Proof.
  intros Hb Hr. rewrite <- (checkTarget_negative_row g r c Hr).
  assert (checkTarget g r c ≠ Pass) as Hne.
  { rewrite (checkTarget_negative_row g r c Hr). by destruct (_ <=? _). }
  unfold SHAPES in Hb.
  repeat (apply elem_of_cons in Hb as [->|Hb];
          [by apply canPlace_first_offset|]).
  by apply elem_of_nil in Hb.
Qed.

(** X4. On a well-formed board the validation raises only when some
    occupied offset targets a negative row (at a column below 8). *)
Theorem canPlace_Crash_negative_row (g : Grid) (r c : Z) (sh : list (list Z)) :
  wf_grid g → canPlace g r c sh = Crash →
  ∃ i j, occupies sh i j ∧ r + Z.of_nat i < 0
         ∧ c + Z.of_nat j < Z.of_nat GRID_SIZE.
Proof.
  intros Hg E. assert (Crash ≠ Pass) as Hx by done.
  destruct (canPlace_stop g r c sh Crash Hx E) as (i & j & Hocc & Ht).
  exists i, j. split; [done|].
  apply checkTarget_Crash in Ht as (Hr8 & Hc8 & Hget). split; [|done].
  destruct (Z.lt_ge_cases (r + Z.of_nat i) 0) as [?|Hr0]; [done|].
  destruct (wf_grid_lookup g (Z.to_nat (r + Z.of_nat i)) Hg) as (row & Hrow & _); [lia|].
  assert (get g (r + Z.of_nat i) = Some row) as E' by (by apply get_Some).
  congruence.
Qed.

(** X5. In a session a click on a cell with a row index that is not
    negative, as every rendered cell has, never raises: the handler
    skips, rejects or accepts. *)
Theorem click_never_raises (st : State) (r c : Z) (u : Q) :
  reachable st → 0 ≤ r →
  (onCellClick st r c u).2 = NoSelection
  ∨ (onCellClick st r c u).2 = Attempted (Returned false)
  ∨ (onCellClick st r c u).2 = Attempted (Returned true).
Proof.
  intros Hst Hr. destruct (reachable_invariant st Hst) as (Hg & _).
  unfold onCellClick. destruct (selected st) as [b|]; [|by left].
  right. destruct (canPlace (grid st) r c (shape b)) eqn:E.
  - destruct (placeBlock_accept st r c b u Hg E) as (pg & rows & cols & st' & _ & -> & _).
    by right.
  - left. unfold placeBlock. by rewrite E.
  - by destruct (canPlace_no_crash (grid st) r c (shape b) Hg Hr).
Qed.

(** ** The random source *)

Lemma Qfloor_unique (x : Q) (k : Z) :
  (inject_Z k <= x)%Q → (x < inject_Z (k + 1))%Q → Qfloor x = k.
Proof.
  intros Hle Hlt. apply Z.le_antisymm.
  - assert (Qfloor x < k + 1) as H; [|lia].
    rewrite Zlt_Qlt. eapply Qle_lt_trans; [apply Qfloor_le|done].
  - rewrite <- (Qfloor_Z k) at 1. by apply Qfloor_resp_le.
Qed.

(** X6. [getRandomBlock] gives a block, and not [undefined], exactly for
    the draws [0 <= u < 1] that [Math.random()] can give; a draw of 1
    would index [SHAPES[8]]. *)
Theorem getRandomBlock_defined_iff (u : Q) :
  is_Some (getRandomBlock u) ↔ valid_draw u.
Proof.
  split.
  - intros [b Hb]. unfold getRandomBlock in Hb.
    set (k := Qfloor (u * inject_Z (Z.of_nat (length SHAPES)))) in *.
    apply get_Some in Hb as [Hk0 Hb]. apply lookup_lt_Some in Hb. simpl in Hb.
    assert (0 < inject_Z 8)%Q as H8 by done.
    split.
    + apply (Qmult_le_r _ _ _ H8). change (0 * inject_Z 8)%Q with (inject_Z 0).
      eapply Qle_trans; [|apply Qfloor_le].
      change (Qfloor (u * inject_Z 8)) with k. by rewrite <- Zle_Qle.
    + apply (Qmult_lt_r _ _ _ H8). change (1 * inject_Z 8)%Q with (inject_Z 8).
      eapply Qlt_le_trans; [apply Qlt_floor|].
      change (Qfloor (u * inject_Z 8)) with k. rewrite <- Zle_Qle. lia.
  - intros Hu. destruct (getRandomBlock_valid u Hu) as (b & -> & _). by exists b.
Qed.

(** X7. The draws are cut into eight intervals of the same width: a draw
    with [k/8 <= u < (k+1)/8] picks [SHAPES[k]]. *)
Theorem getRandomBlock_interval (u : Q) (k : nat) :
  (Z.of_nat k # 8 <= u)%Q → (u < Z.of_nat (S k) # 8)%Q →
  getRandomBlock u = SHAPES !! k.
Proof.
  intros Hle Hlt. unfold getRandomBlock.
  rewrite (Qfloor_unique _ (Z.of_nat k)); [apply get_of_nat| |].
  - destruct u as [un ud]. unfold Qle in *. simpl in *. lia.
  - destruct u as [un ud]. unfold Qlt in *. simpl in *. lia.
Qed.

(** ** Invariants of a session *)

(** X8. In every state of a session the board has 8 rows of 8 cells and
    every cell is [null] or a colour: no write of the engine extends a row
    or leaves an empty slot. *)
Theorem session_board_well_formed (st : State) :
  reachable st → wf_grid (grid st).
Proof. intros Hst. by destruct (reachable_invariant st Hst) as (Hg & _). Qed.

Lemma scanRows_length (g : Grid) (rs rows : list nat) :
  scanRows g rs = Some rows → (length rows ≤ length rs)%nat.
Proof.
  revert rows. induction rs as [|r rs IH]; intros rows; simpl.
  { intros [= <-]. done. }
  destruct (g !! r) as [row|]; [simpl|done].
  destruct (scanRows g rs) as [found|]; [simpl|done].
  specialize (IH found eq_refl). intros [= <-].
  destruct (every not_null row); simpl; lia.
Qed.

Lemma handleClears_score_step (g : Grid) (st st' : State) :
  handleClears g st = Some st' →
  ∃ n : nat, (n ≤ 16)%nat ∧ score st' = score st + Z.of_nat n * 200.
Proof.
  unfold handleClears. destruct (rowsToClear g) as [rows|] eqn:E; [simpl|done].
  destruct (decide _).
  - intros [= <-]. exists 0%nat. split; [lia|]. simpl. lia.
  - intros [= <-]. exists (length rows + length (colsToClear g))%nat.
    split; [|done]. apply scanRows_length in E. rewrite length_seq in E.
    pose proof (length_filter (λ c, colFull g c = true) (seq 0 GRID_SIZE)) as Hc.
    rewrite length_seq in Hc. unfold colsToClear, GRID_SIZE in *. lia.
Qed.

Lemma step_score_step (st : State) (a : action) :
  ∃ n : nat, (n ≤ 16)%nat ∧ score (step st a) = score st + Z.of_nat n * 200.
Proof.
  assert (∃ n : nat, (n ≤ 16)%nat ∧ score st = score st + Z.of_nat n * 200) as Hsame.
  { exists 0%nat. split; [lia|]. simpl. lia. }
  destruct a as [i|r c u|]; simpl; [| |done].
  - unfold onQueueClick. by destruct (queue st !! i).
  - unfold onCellClick. destruct (selected st) as [b|]; [|done].
    unfold placeBlock. destruct (canPlace _ _ _ _); [|done..].
    destruct (place _ _ _ _) as [pg|]; [|done].
    destruct (handleClears _ _) as [st2|] eqn:E; [|done].
    by apply handleClears_score_step in E.
Qed.

(** X9. The score moves in steps of 200: an event adds [n * 200] for some
    [n] from 0 to 16 (8 rows and 8 columns), and the score of a session is
    always a multiple of 200. *)
Theorem score_multiple_of_200 :
  (∀ st a, ∃ n : nat, (n ≤ 16)%nat
                      ∧ score (step st a) = score st + Z.of_nat n * 200) ∧
  (∀ u1 u2 u3 tr, ∃ n : nat, score (run (initState u1 u2 u3) tr) = Z.of_nat n * 200).
Proof.
  split; [apply step_score_step|]. intros u1 u2 u3 tr.
  assert (∀ st, (∃ n : nat, score st = Z.of_nat n * 200) →
                ∃ n : nat, score (run st tr) = Z.of_nat n * 200) as Hrun.
  { induction tr as [|a tr IH]; intros st Hst; [done|].
    change (run st (a :: tr)) with (run (step st a) tr). apply IH.
    destruct Hst as [n Hn]. destruct (step_score_step st a) as (m & _ & Hm).
    exists (n + m)%nat. rewrite Hm, Hn. lia. }
  apply Hrun. by exists 0%nat.
Qed.

(** ** Clearing after an accepted placement *)

(** X10. After an accepted placement every cell on a row or column that
    is full on the post-placement board is empty, and every cell that is
    on no full line keeps what the placement left there. *)
Theorem accepted_placement_clears_full_lines (st : State) (r c : Z) (b : Block) (u : Q) :
  wf_grid (grid st) → canPlace (grid st) r c (shape b) = Pass →
  ∃ pg st',
    place (grid st) r c b = Some pg ∧
    placeBlock st r c b u = (st', Returned true) ∧
    ∀ r' c', (r' < GRID_SIZE)%nat → (c' < GRID_SIZE)%nat →
      (full_row pg r' ∨ full_col pg c' → cellAt (grid st') r' c' = Some Null)
      ∧ (¬ full_row pg r' → ¬ full_col pg c' →
         cellAt (grid st') r' c' = cellAt pg r' c').
Proof.
  intros Hg HP.
  destruct (placeBlock_accept st r c b u Hg HP)
    as (pg & rows & cols & st' & Hpg & Hpb & _ & (_ & _ & Hrm & Hcm) & _ & Hcl & _).
  exists pg, st'. split; [done|]. split; [done|]. intros r' c' Hr Hc.
  rewrite (Hcl r' c' Hr Hc). split.
  - intros Hfull. rewrite decide_True; [done|].
    destruct Hfull as [Hf|Hf]; [left; by apply Hrm|right; by apply Hcm].
  - intros Hnr Hnc. rewrite decide_False; [done|].
    intros [Hin|Hin]; [apply Hrm in Hin as [_ ?]|apply Hcm in Hin as [_ ?]]; done.
Qed.

Lemma explosionCells_elem (g : Grid) (rows cols : list nat) (r c : nat) :
  (r, c) ∈ explosionCells g rows cols ↔
  (r ∈ rows ∧ (c < length (default [] (g !! r)))%nat)
  ∨ (c ∈ cols ∧ (r < length g)%nat).
Proof.
  unfold explosionCells. rewrite elem_of_app, !list_elem_of_In, !in_flat_map.
  split.
  - intros [(r0 & Hr0 & Hin)|(c0 & Hc0 & Hin)].
    + apply list_elem_of_In, list_elem_of_fmap in Hin as (c1 & [= -> ->] & Hc1).
      left. split; [done|]. apply elem_of_seq in Hc1. lia.
    + apply list_elem_of_In, list_elem_of_fmap in Hin as (r1 & [= -> ->] & Hr1).
      right. split; [done|]. apply elem_of_seq in Hr1. lia.
  - intros [[Hr Hc]|[Hc Hr]].
    + left. exists r. split; [done|].
      apply list_elem_of_In, list_elem_of_fmap. exists c. split; [done|].
      apply elem_of_seq. lia.
    + right. exists c. split; [done|].
      apply list_elem_of_In, list_elem_of_fmap. exists r. split; [done|].
      apply elem_of_seq. lia.
Qed.

(** X11. The cells an accepted placement hands to [triggerExplosion] are
    exactly the cells of the board that lie on a full row or a full column
    of the post-placement board; they are appended to the pending
    explosions. *)
Theorem explosion_cells_are_the_full_lines (st : State) (r c : Z) (b : Block) (u : Q) :
  wf_grid (grid st) → canPlace (grid st) r c (shape b) = Pass →
  ∃ pg st' added,
    place (grid st) r c b = Some pg ∧
    placeBlock st r c b u = (st', Returned true) ∧
    explosions st' = explosions st ++ added ∧
    ∀ r' c', (r', c') ∈ added ↔
             (r' < GRID_SIZE)%nat ∧ (c' < GRID_SIZE)%nat
             ∧ (full_row pg r' ∨ full_col pg c').
Proof.
  intros Hg HP.
  destruct (placeBlock_accept st r c b u Hg HP)
    as (pg & rows & cols & st' & Hpg & Hpb & Hwf & (_ & _ & Hrm & Hcm) & _ & _ & _ & Hex & _).
  exists pg, st', (explosionCells pg rows cols).
  split; [done|]. split; [done|]. split; [done|]. intros r' c'.
  rewrite explosionCells_elem. destruct Hwf as [Hlen Hrows]. rewrite Hlen. split.
  - intros [[Hin Hc]|[Hin Hr]].
    + apply Hrm in Hin as [Hr Hf].
      destruct (wf_grid_lookup pg r' (conj Hlen Hrows) Hr) as (row & Hrow & [Hl _]).
      rewrite Hrow in Hc. simpl in Hc. rewrite Hl in Hc. by auto.
    + apply Hcm in Hin as [Hc Hf]. by auto.
  - intros (Hr & Hc & [Hf|Hf]).
    + left. split; [by apply Hrm|].
      destruct (wf_grid_lookup pg r' (conj Hlen Hrows) Hr) as (row & Hrow & [Hl _]).
      rewrite Hrow. simpl. by rewrite Hl.
    + right. split; [by apply Hcm|done].
Qed.

Lemma scanRows_is_Some (g : Grid) (rs : list nat) :
  is_Some (scanRows g rs) ↔ Forall (λ r, r < length g)%nat rs.
Proof.
  induction rs as [|r rs IH]; simpl.
  { split; [intros _; apply Forall_nil_2|by eexists]. }
  rewrite Forall_cons, <- IH. destruct (g !! r) as [row|] eqn:E; simpl.
  - apply lookup_lt_Some in E. destruct (scanRows g rs) as [found|]; simpl.
    + split; [intros _; split; [done|by eexists]|by eexists].
    + split; [by intros [? ?]|]. by intros [_ [? ?]].
  - apply lookup_ge_None in E. split; [by intros [? ?]|]. intros [? _]. lia.
Qed.

(** X12. [handleClears] raises the TypeError of line 75 exactly when the
    board it is given has fewer than 8 rows; the number and the content of
    the cells of a row play no part. *)
Theorem handleClears_raises_iff (g : Grid) (st : State) :
  handleClears g st = None ↔ (length g < GRID_SIZE)%nat.
Proof.
  pose proof (scanRows_is_Some g (seq 0 GRID_SIZE)) as HS.
  assert (Forall (λ r, r < length g)%nat (seq 0 GRID_SIZE)
          ↔ (GRID_SIZE ≤ length g)%nat) as HF.
  { rewrite Forall_forall. split.
    - intros H. specialize (H 7%nat). rewrite elem_of_seq in H.
      unfold GRID_SIZE in *. lia.
    - intros H r Hr. apply elem_of_seq in Hr. lia. }
  unfold handleClears, rowsToClear in *.
  destruct (scanRows g (seq 0 GRID_SIZE)) as [rows|]; simpl.
  - split.
    + by destruct (decide _).
    + intros Hlt. assert (GRID_SIZE ≤ length g)%nat; [|lia].
      apply HF, HS. by eexists.
  - split; [|done]. intros _.
    destruct (decide (length g < GRID_SIZE)%nat) as [?|Hge]; [done|].
    assert (is_Some (@None (list nat))) as [? ?]; [|done]. apply HS, HF. lia.
Qed.

(** X13. One pass of [handleClears] leaves nothing to clear: run again on
    the board it produced, it finds no full line and changes nothing, so
    clears never cascade. *)
Theorem handleClears_clears_once (g : Grid) (st st' : State) :
  wf_grid g → grid st = g → handleClears g st = Some st' →
  handleClears (grid st') st' = Some st'.
Proof.
  intros Hg Hgrid Hh.
  destruct (handleClears_spec g st Hg Hgrid)
    as (rows & cols & st1 & Hh1 & Hdet & Hwf & Hcl & _).
  assert (st1 = st') as -> by congruence.
  destruct (handleClears_spec (grid st') st' Hwf eq_refl)
    as (rows2 & cols2 & st2 & Hh2 & Hdet2 & _ & _ & _ & _ & _ & _ & Hnone).
  rewrite Hh2. f_equal. apply Hnone.
  apply (no_full_line_detected (grid st') rows2 cols2 Hdet2).
  exact (cleared_no_full_line g (grid st') rows cols Hdet Hcl).
Qed.

Lemma bounded_or (P Q : nat → Prop) (n : nat) :
  (∀ i, (i < n)%nat → P i ∨ Q i) →
  (∃ i, (i < n)%nat ∧ P i) ∨ (∀ i, (i < n)%nat → Q i).
Proof.
  induction n as [|n IH]; intros H.
  { right. intros i Hi. lia. }
  destruct IH as [(i & Hi & HP)|HQ].
  - intros i Hi. apply H. lia.
  - left. exists i. split; [lia|done].
  - destruct (H n) as [HP|HQn]; [lia| |].
    + left. exists n. split; [lia|done].
    + right. intros i Hi. destruct (decide (i = n)) as [->|Hne]; [done|].
      apply HQ. lia.
Qed.

(** A row that the write loop completed holds a covered cell. *)
Lemma touched_row (g pg : Grid) (r c : Z) (sh : list (list Z)) (col : string) (k : nat) :
  (∀ r' c', painted (covers r c sh r' c') col (cellAt g r' c') (cellAt pg r' c')) →
  ¬ full_row g k → full_row pg k →
  ∃ c', (c' < GRID_SIZE)%nat ∧ covers r c sh k c'.
Proof.
  intros Hcell Hnr Hfull.
  destruct (bounded_or (λ c', covers r c sh k c')
                       (λ c', cellAt pg k c' = cellAt g k c') GRID_SIZE) as [?|Hsame];
    [|done|].
  - intros c' _. by destruct (Hcell k c') as [[? _]|[_ ?]]; [left|right].
  - destruct Hnr. intros c' Hc'. destruct (Hfull c' Hc') as [x Hx].
    exists x. by rewrite <- (Hsame c' Hc').
Qed.

Lemma touched_col (g pg : Grid) (r c : Z) (sh : list (list Z)) (col : string) (k : nat) :
  (∀ r' c', painted (covers r c sh r' c') col (cellAt g r' c') (cellAt pg r' c')) →
  ¬ full_col g k → full_col pg k →
  ∃ r', (r' < GRID_SIZE)%nat ∧ covers r c sh r' k.
Proof.
  intros Hcell Hnc Hfull.
  destruct (bounded_or (λ r', covers r c sh r' k)
                       (λ r', cellAt pg r' k = cellAt g r' k) GRID_SIZE) as [?|Hsame];
    [|done|].
  - intros r' _. by destruct (Hcell r' k) as [[? _]|[_ ?]]; [left|right].
  - destruct Hnc. intros r' Hr'. destruct (Hfull r' Hr') as [x Hx].
    exists x. by rewrite <- (Hsame r' Hr').
Qed.

(** X14. On a board without a full line, as every board of a session is,
    a placement can only complete the lines it touches: a row or column
    that is full after the write loop holds a cell the shape covers. *)
Theorem only_touched_lines_become_full (g pg : Grid) (r c : Z) (b : Block) (k : nat) :
  wf_grid g → no_full_line g →
  canPlace g r c (shape b) = Pass → place g r c b = Some pg →
  (k < GRID_SIZE)%nat →
  (full_row pg k → ∃ c', (c' < GRID_SIZE)%nat ∧ covers r c (shape b) k c')
  ∧ (full_col pg k → ∃ r', (r' < GRID_SIZE)%nat ∧ covers r c (shape b) r' k).
Proof.
  intros Hg Hnf HP Hpg Hk.
  destruct (place_after_Pass g r c b Hg HP) as (pg' & Hpg' & _ & Hcell).
  assert (pg' = pg) as -> by congruence.
  destruct (Hnf k Hk) as [Hnr Hnc]. split; intros Hfull.
  - by eapply touched_row.
  - by eapply touched_col.
Qed.

(** The board after an accepted placement, cell by cell, from the board
    before it. *)
Lemma placeBlock_board (st : State) (r c : Z) (b : Block) (u : Q) :
  wf_grid (grid st) → canPlace (grid st) r c (shape b) = Pass →
  ∃ pg st',
    place (grid st) r c b = Some pg ∧
    placeBlock st r c b u = (st', Returned true) ∧
    ∀ r' c', (r' < GRID_SIZE)%nat → (c' < GRID_SIZE)%nat →
      cellAt (grid st') r' c' =
        if decide (full_row pg r' ∨ full_col pg c') then Some Null
        else if decide (cellAt pg r' c' = cellAt (grid st) r' c')
             then cellAt (grid st) r' c'
             else Some (Color (color b)).
Proof.
  intros Hg HP.
  destruct (place_after_Pass _ _ _ _ Hg HP) as (pg & Hpg & _ & Hcell).
  destruct (placeBlock_accept st r c b u Hg HP)
    as (pg' & rows & cols & st' & Hpg' & Hpb & _ & (_ & _ & Hrm & Hcm) & _ & Hcl & _).
  assert (pg' = pg) as -> by congruence.
  exists pg, st'. split; [done|]. split; [done|]. intros r' c' Hr Hc.
  rewrite (Hcl r' c' Hr Hc).
  destruct (decide (full_row pg r' ∨ full_col pg c')) as [Hfull|Hnfull].
  - rewrite decide_True; [done|].
    destruct Hfull as [Hf|Hf]; [left; by apply Hrm|right; by apply Hcm].
  - rewrite decide_False.
    + destruct (decide _) as [Heq|Hne]; [done|].
      by destruct (Hcell r' c') as [[_ ?]|[_ ?]].
    + intros [Hin|Hin]; apply Hnfull;
        [left; by apply Hrm in Hin as [_ ?]|right; by apply Hcm in Hin as [_ ?]].
Qed.

(** X15. The whole effect of an accepted placement on the board: a cell
    on a line that the placement completed ends empty; any other cell the
    shape covers was empty and ends with the colour of the block; every
    remaining cell is as before the call. *)
Theorem accepted_placement_board (st : State) (r c : Z) (b : Block) (u : Q) :
  wf_grid (grid st) → canPlace (grid st) r c (shape b) = Pass →
  ∃ pg st',
    place (grid st) r c b = Some pg ∧
    placeBlock st r c b u = (st', Returned true) ∧
    ∀ r' c', (r' < GRID_SIZE)%nat → (c' < GRID_SIZE)%nat →
      (full_row pg r' ∨ full_col pg c' → cellAt (grid st') r' c' = Some Null)
      ∧ (¬ full_row pg r' → ¬ full_col pg c' → covers r c (shape b) r' c' →
         cellAt (grid st) r' c' = Some Null
         ∧ cellAt (grid st') r' c' = Some (Color (color b)))
      ∧ (¬ full_row pg r' → ¬ full_col pg c' → ¬ covers r c (shape b) r' c' →
         cellAt (grid st') r' c' = cellAt (grid st) r' c').
Proof.
  intros Hg HP.
  destruct (place_after_Pass _ _ _ _ Hg HP) as (pg & Hpg & _ & Hcell).
  destruct (placeBlock_board st r c b u Hg HP) as (pg' & st' & Hpg' & Hpb & Hboard).
  assert (pg' = pg) as -> by congruence.
  exists pg, st'. split; [done|]. split; [done|]. intros r' c' Hr Hc.
  rewrite (Hboard r' c' Hr Hc). split; [|split].
  - intros Hfull. by rewrite decide_True.
  - intros Hnr Hnc Hcov. rewrite decide_False by (by intros [?|?]).
    pose proof (canPlace_Pass_empty _ _ _ _ _ _ HP Hcov) as Hempty.
    split; [done|]. destruct (Hcell r' c') as [[_ Hp]|[Hn _]]; [|done].
    rewrite decide_False; [done|]. rewrite Hp, Hempty. done.
  - intros Hnr Hnc Hncov. rewrite decide_False by (by intros [?|?]).
    destruct (Hcell r' c') as [[? _]|[_ Hsame]]; [done|].
    by rewrite decide_True.
Qed.

(** ** Selection and queue *)

Lemma placeBlock_selection (st : State) (r c : Z) (b : Block) (u : Q) :
  selected (placeBlock st r c b u).1 = None
  ∨ (selected (placeBlock st r c b u).1 = selected st
     ∧ queue (placeBlock st r c b u).1 = queue st).
Proof.
  unfold placeBlock. destruct (canPlace _ _ _ _); [|by right..].
  destruct (place _ _ _ _) as [pg|]; [|by right].
  destruct (handleClears _ _) as [st2|]; [by left|by right].
Qed.

(** X16. In a session the selected block, when there is one, is an entry
    of the current queue and a block of the catalog: a selection is only
    made from the queue, and the queue only changes when [updateQueue]
    resets the selection. *)
Theorem selection_is_queue_entry (st : State) (b : Block) :
  reachable st → selected st = Some b →
  Some b ∈ queue st ∧ b ∈ SHAPES.
Proof.
  intros Hst Hsel.
  assert (Some b ∈ queue st) as Hin.
  { revert b Hsel. induction Hst as [u1 u2 u3 _ _ _|st a Hst IH Hv]; intros b Hsel.
    { done. }
    destruct a as [i|r c u|]; simpl in *.
    - unfold onQueueClick in *. destruct (queue st !! i) as [e|] eqn:E; [|by apply IH].
      simpl in Hsel. subst e. by eapply list_elem_of_lookup_2.
    - unfold onCellClick in *.
      destruct (selected st) as [b0|] eqn:Es; [|simpl in *; congruence].
      pose proof (placeBlock_selection st r c b0 u) as Hps.
      destruct (placeBlock st r c b0 u) as [st' o]. simpl in *.
      destruct Hps as [Hnone|[Hs Hq]]; [congruence|].
      rewrite Hq. apply IH. congruence.
    - by apply IH. }
  split; [done|].
  destruct (reachable_invariant st Hst) as (_ & _ & _ & Hq & _).
  destruct (proj1 (Forall_forall _ _) Hq (Some b) Hin) as (b' & [= <-] & Hb). done.
Qed.

(** X17. The pending explosions never steer the engine: whatever the
    explosion list holds, an event gives the same board, queue, selection
    and score, and a click on a cell ends the same way; the timer that
    empties the list changes nothing else. *)
Theorem explosions_do_not_steer (st : State) (f : list (nat * nat) → list (nat * nat)) :
  (∀ a, engine (step (setExplosions f st) a) = engine (step st a)) ∧
  (∀ r c u, (onCellClick (setExplosions f st) r c u).2 = (onCellClick st r c u).2) ∧
  engine (explosionTimeout st) = engine st.
Proof.
  assert (∀ r c u,
    engine (onCellClick (setExplosions f st) r c u).1 = engine (onCellClick st r c u).1
    ∧ (onCellClick (setExplosions f st) r c u).2 = (onCellClick st r c u).2) as Hclick.
  { intros r c u. unfold onCellClick. simpl.
    destruct (selected st) as [b|]; [|done]. unfold placeBlock. simpl.
    destruct (canPlace _ _ _ _); [|done..].
    destruct (place _ _ _ _) as [pg|]; [|done].
    unfold handleClears. destruct (rowsToClear pg) as [rows|]; [simpl|done].
    by destruct (decide _). }
  split; [|split; [|done]].
  - intros [i|r c u|]; simpl.
    + unfold onQueueClick. simpl. by destruct (queue st !! i).
    + apply Hclick.
    + done.
  - intros r c u. apply Hclick.
Qed.

(** X18. An accepted click uses up the selection: until a block is
    selected again, every further click on the board is skipped and
    changes nothing, so a double click cannot place a block twice. *)
Theorem second_click_is_skipped (st : State) (r c r' c' : Z) (u u' : Q) :
  (onCellClick st r c u).2 = Attempted (Returned true) →
  onCellClick (onCellClick st r c u).1 r' c' u'
  = ((onCellClick st r c u).1, NoSelection).
Proof.
  unfold onCellClick at 1 3 4. destruct (selected st) as [b|]; [|done].
  destruct (placeBlock st r c b u) as [st' o] eqn:E. simpl. intros [= ->].
  apply placeBlock_Returned_true in E as (_ & _ & Hsel).
  unfold onCellClick. by rewrite Hsel.
Qed.

(** ** The most a placement can score *)

Lemma occupies_bounds (sh : list (list Z)) (i j : nat) :
  occupies sh i j → (i < shape_height sh)%nat ∧ (j < shape_width sh)%nat.
Proof.
  intros (cells & Hi & Hj). split; [by eapply lookup_lt_Some|].
  apply lookup_lt_Some in Hj. unfold shape_width.
  assert (length cells ≤ max_list (length <$> sh))%nat; [|lia].
  apply max_list_elem_of_le, list_elem_of_fmap. exists cells.
  split; [done|]. by eapply list_elem_of_lookup_2.
Qed.

(** No shape of the catalog spans more than five rows and columns
    together. *)
Lemma catalog_extent (b : Block) :
  b ∈ SHAPES → (shape_height (shape b) + shape_width (shape b) ≤ 5)%nat.
Proof.
  intros Hb. unfold SHAPES in Hb.
  repeat (apply elem_of_cons in Hb as [->|Hb]; [vm_compute; lia|]).
  by apply elem_of_nil in Hb.
Qed.

(** A duplicate-free list of indices that all lie [n] steps from [a] has
    at most [n] entries. *)
Lemma NoDup_window (l : list nat) (a : Z) (n : nat) :
  NoDup l →
  (∀ k, k ∈ l → ∃ i, (i < n)%nat ∧ Z.of_nat k = a + Z.of_nat i) →
  (length l ≤ n)%nat.
Proof.
  intros Hnd Hin.
  assert (l ⊆+ (λ i, Z.to_nat (a + Z.of_nat i)) <$> seq 0 n) as Hsub.
  { apply NoDup_submseteq; [done|]. intros k Hk.
    destruct (Hin k Hk) as (i & Hi & Heq). apply list_elem_of_fmap.
    exists i. split; [lia|]. apply elem_of_seq. lia. }
  apply submseteq_length in Hsub. by rewrite length_fmap, length_seq in Hsub.
Qed.

(** X19. On a well-formed board without a full line, as every board of
    a session is, placing a block of the catalog adds at most 1000 to the
    score: only lines through the block can become full, and no block of
    the catalog lies on more than five rows and columns together. *)
Theorem catalog_placement_scores_at_most_1000 (st : State) (r c : Z) (b : Block) (u : Q) :
  wf_grid (grid st) → no_full_line (grid st) → b ∈ SHAPES →
  score st ≤ score (placeBlock st r c b u).1 ≤ score st + 1000.
Proof.
  intros Hg Hnf Hb. split; [apply placeBlock_score|].
  destruct (canPlace (grid st) r c (shape b)) eqn:HP.
  2,3: unfold placeBlock; rewrite HP; simpl; lia.
  destruct (place_after_Pass _ _ _ _ Hg HP) as (pg & Hpg & _ & Hcell).
  destruct (placeBlock_accept st r c b u Hg HP)
    as (pg' & rows & cols & st' & Hpg' & -> & _ & (Hnr & Hnc & Hrm & Hcm) & _ & _ & Hsc & _).
  assert (pg' = pg) as -> by congruence. simpl. rewrite Hsc.
  pose proof (catalog_extent b Hb) as Hext.
  assert (length rows ≤ shape_height (shape b))%nat as Hrows.
  { apply (NoDup_window rows r); [done|]. intros k Hk.
    apply Hrm in Hk as [Hk Hfull]. destruct (Hnf k Hk) as [Hnfr _].
    destruct (touched_row _ _ _ _ _ _ _ Hcell Hnfr Hfull) as (c' & _ & i & j & Hocc & Hr & _).
    exists i. split; [|done]. by apply occupies_bounds in Hocc as [? _]. }
  assert (length cols ≤ shape_width (shape b))%nat as Hcols.
  { apply (NoDup_window cols c); [done|]. intros k Hk.
    apply Hcm in Hk as [Hk Hfull]. destruct (Hnf k Hk) as [_ Hnfc].
    destruct (touched_col _ _ _ _ _ _ _ Hcell Hnfc Hfull) as (r' & _ & i & j & Hocc & _ & Hc).
    exists j. split; [|done]. by apply occupies_bounds in Hocc as [_ ?]. }
  lia.
Qed.

(** ** The further properties on the scenarios *)

(** The square at [(3, 3)] of the empty board. *)
Lemma place_paints_covered_cells_witness :
  ∃ pg, place emptyGrid 3 3 Square = Some pg ∧ wf_grid pg ∧
    ∀ r' c',
      (covers 3 3 (shape Square) r' c' →
         cellAt emptyGrid r' c' = Some Null
         ∧ cellAt pg r' c' = Some (Color (color Square)))
      ∧ (¬ covers 3 3 (shape Square) r' c' → cellAt pg r' c' = cellAt emptyGrid r' c').
Proof.
  apply (place_paints_covered_cells emptyGrid 3 3 Square).
  - by_evaluation.
  - reflexivity.
Defined.

(** The square at [(-1, 0)]: column 0 is below 8, so line 47 raises. *)
Lemma catalog_negative_row_anchor_witness :
  canPlace emptyGrid (-1) 0 (shape Square) = Crash.
Proof.
  apply (catalog_negative_row_anchor emptyGrid (-1) 0 Square).
  - by_evaluation.
  - lia.
Defined.

Lemma canPlace_Crash_negative_row_witness :
  ∃ i j, occupies (shape Square) i j ∧ -1 + Z.of_nat i < 0
         ∧ 0 + Z.of_nat j < Z.of_nat GRID_SIZE.
Proof.
  apply (canPlace_Crash_negative_row emptyGrid (-1) 0 (shape Square)).
  - by_evaluation.
  - reflexivity.
Defined.

Lemma click_never_raises_witness :
  (onCellClick halfRowState 0 4 (3 # 8)).2 = NoSelection
  ∨ (onCellClick halfRowState 0 4 (3 # 8)).2 = Attempted (Returned false)
  ∨ (onCellClick halfRowState 0 4 (3 # 8)).2 = Attempted (Returned true).
Proof.
  apply (click_never_raises halfRowState 0 4 (3 # 8)).
  - apply reachable_halfRowState.
  - lia.
Defined.

(** The draw 3/8 lies in the fourth interval and picks the 1x4 line. *)
Lemma getRandomBlock_interval_witness :
  getRandomBlock (3 # 8) = SHAPES !! 3%nat.
Proof.
  apply (getRandomBlock_interval (3 # 8) 3).
  - unfold Qle. simpl. lia.
  - unfold Qlt. simpl. lia.
Defined.

Lemma session_board_well_formed_witness : wf_grid (grid halfRowState).
Proof. apply (session_board_well_formed halfRowState), reachable_halfRowState. Defined.

Lemma accepted_placement_clears_full_lines_witness :
  ∃ pg st',
    place (grid cornerState) 5 0 VerticalLine = Some pg ∧
    placeBlock cornerState 5 0 VerticalLine 0 = (st', Returned true) ∧
    ∀ r' c', (r' < GRID_SIZE)%nat → (c' < GRID_SIZE)%nat →
      (full_row pg r' ∨ full_col pg c' → cellAt (grid st') r' c' = Some Null)
      ∧ (¬ full_row pg r' → ¬ full_col pg c' →
         cellAt (grid st') r' c' = cellAt pg r' c').
Proof.
  apply (accepted_placement_clears_full_lines cornerState 5 0 VerticalLine 0).
  - by_evaluation.
  - reflexivity.
Defined.

Lemma explosion_cells_are_the_full_lines_witness :
  ∃ pg st' added,
    place (grid cornerState) 5 0 VerticalLine = Some pg ∧
    placeBlock cornerState 5 0 VerticalLine 0 = (st', Returned true) ∧
    explosions st' = explosions cornerState ++ added ∧
    ∀ r' c', (r', c') ∈ added ↔
             (r' < GRID_SIZE)%nat ∧ (c' < GRID_SIZE)%nat
             ∧ (full_row pg r' ∨ full_col pg c').
Proof.
  apply (explosion_cells_are_the_full_lines cornerState 5 0 VerticalLine 0).
  - by_evaluation.
  - reflexivity.
Defined.

Lemma handleClears_clears_once_witness :
  handleClears (grid cornerCleared) cornerCleared = Some cornerCleared.
Proof.
  apply (handleClears_clears_once cornerPlaced (setGrid cornerPlaced cornerState)).
  - by_evaluation.
  - reflexivity.
  - reflexivity.
Defined.

(** Row 7 of the corner board is completed through the cell [(7, 0)] of
    the vertical line. *)
Lemma only_touched_lines_become_full_witness :
  (full_row cornerPlaced 7 →
     ∃ c', (c' < GRID_SIZE)%nat ∧ covers 5 0 (shape VerticalLine) 7 c')
  ∧ (full_col cornerPlaced 7 →
     ∃ r', (r' < GRID_SIZE)%nat ∧ covers 5 0 (shape VerticalLine) r' 7).
Proof.
  apply (only_touched_lines_become_full cornerBoard cornerPlaced 5 0 VerticalLine 7).
  - by_evaluation.
  - by_evaluation.
  - reflexivity.
  - reflexivity.
  - unfold GRID_SIZE. lia.
Defined.

Lemma accepted_placement_board_witness :
  ∃ pg st',
    place (grid cornerState) 5 0 VerticalLine = Some pg ∧
    placeBlock cornerState 5 0 VerticalLine 0 = (st', Returned true) ∧
    ∀ r' c', (r' < GRID_SIZE)%nat → (c' < GRID_SIZE)%nat →
      (full_row pg r' ∨ full_col pg c' → cellAt (grid st') r' c' = Some Null)
      ∧ (¬ full_row pg r' → ¬ full_col pg c' → covers 5 0 (shape VerticalLine) r' c' →
         cellAt (grid cornerState) r' c' = Some Null
         ∧ cellAt (grid st') r' c' = Some (Color (color VerticalLine)))
      ∧ (¬ full_row pg r' → ¬ full_col pg c' → ¬ covers 5 0 (shape VerticalLine) r' c' →
         cellAt (grid st') r' c' = cellAt (grid cornerState) r' c').
Proof.
  apply (accepted_placement_board cornerState 5 0 VerticalLine 0).
  - by_evaluation.
  - reflexivity.
Defined.

(** The 1x4 line selected in the half-row state is the front entry of
    the queue. *)
Lemma selection_is_queue_entry_witness :
  Some Line4 ∈ queue halfRowState ∧ Line4 ∈ SHAPES.
Proof.
  apply (selection_is_queue_entry halfRowState Line4).
  - apply reachable_halfRowState.
  - reflexivity.
Defined.

Lemma second_click_is_skipped_witness :
  onCellClick (onCellClick halfRowState 0 4 (3 # 8)).1 0 0 0
  = ((onCellClick halfRowState 0 4 (3 # 8)).1, NoSelection).
Proof.
  apply (second_click_is_skipped halfRowState 0 4 0 0 (3 # 8) 0). reflexivity.
Defined.

(** The vertical line on the corner board completes two lines: 400 of
    the 1000 that a placement can add. *)
Lemma catalog_placement_scores_at_most_1000_witness :
  score cornerState ≤ score (placeBlock cornerState 5 0 VerticalLine 0).1
  ≤ score cornerState + 1000.
Proof.
  apply (catalog_placement_scores_at_most_1000 cornerState 5 0 VerticalLine 0).
  - by_evaluation.
  - by_evaluation.
  - by_evaluation.
Defined.
